(** * DoggoTranslator: a shallow embedding of the translator class

    The development follows [DoggoTranslator] (the translator class of the
    repository) method by method.  JavaScript strings are sequences of
    UTF-16 code units; the regular expressions the class builds are given
    the semantics of ECMAScript's pattern matcher for the fragment the
    class can produce (literal characters, identity escapes, capturing
    parentheses and the word-boundary assertion, flags [g] and [i]). *)

From Equations Require Import Equations.
From Stdlib Require Import List NArith Bool Ascii String Lia.
Import ListNotations.

Local Open Scope N_scope.

(** ** Strings *)

(** A code unit of a JavaScript string. *)
Definition codeUnit := N.

(** A JavaScript string value. *)
Definition jsstring := list codeUnit.

(** String literals of the source, written with Rocq's string notation. *)
Fixpoint js (s : string) : jsstring :=
  match s with
  | EmptyString => []
  | String a s' => N_of_ascii a :: js s'
  end.

(** [a === b] on strings. *)
Fixpoint strictEq (a b : jsstring) : bool :=
  match a, b with
  | [], [] => true
  | x :: a', y :: b' => (x =? y) && strictEq a' b'
  | _, _ => false
  end.

(** [lo <= c <= hi]. *)
Definition inRange (lo hi c : codeUnit) : bool := (lo <=? c) && (c <=? hi).

(** ** Character classes of the pattern language *)

(** [\s]: WhiteSpace and LineTerminator code points. *)
Definition isWhiteSpace (c : codeUnit) : bool :=
  inRange 9 13 c || (c =? 32) || (c =? 160) || (c =? 5760)
  || inRange 8192 8202 c || (c =? 8232) || (c =? 8233) || (c =? 8239)
  || (c =? 8287) || (c =? 12288) || (c =? 65279).

(** Word characters of the [\b] assertion: [A-Za-z0-9_]. *)
Definition isWordChar (c : codeUnit) : bool :=
  inRange 97 122 c || inRange 65 90 c || inRange 48 57 c || (c =? 95).

(** SyntaxCharacter of the pattern grammar: [^ $ \ . * + ? ( ) [ ] { } |]. *)
Definition isSyntaxCharacter (c : codeUnit) : bool :=
  (c =? 94) || (c =? 36) || (c =? 92) || (c =? 46) || (c =? 42) || (c =? 43)
  || (c =? 63) || (c =? 40) || (c =? 41) || (c =? 91) || (c =? 93)
  || (c =? 123) || (c =? 125) || (c =? 124).

(** The code unit of [\]. *)
Definition backslash : codeUnit := 92.

(** The class [[-[\]{}()*+?.,\\^$|#\s]] of [escapeRegex], member by member
    in the order the source lists them. *)
Definition inEscapeClass (c : codeUnit) : bool :=
  (c =? 45) || (c =? 91) || (c =? 93) || (c =? 123) || (c =? 125)
  || (c =? 40) || (c =? 41) || (c =? 42) || (c =? 43) || (c =? 63)
  || (c =? 46) || (c =? 44) || (c =? 92) || (c =? 94) || (c =? 36)
  || (c =? 124) || (c =? 35) || isWhiteSpace c.

(** [escapeRegex]: [target.replace(/[...]/g, '\\$&')].  The class matches
    one code unit at a time, so the global replacement visits the code
    units left to right and puts a backslash before each member. *)
Fixpoint escapeRegex (target : jsstring) : jsstring :=
  match target with
  | [] => []
  | c :: rest =>
      if inEscapeClass c then backslash :: c :: escapeRegex rest
      else c :: escapeRegex rest
  end.

(** ** Patterns *)

(** The atoms of a compiled pattern.  Capturing parentheses do not change
    what a pattern matches and the class never reads a capture, so a
    compiled pattern is the sequence of its assertions and characters. *)
Inductive Atom : Type :=
| WordBoundary
| Char (c : codeUnit).

(** A compiled pattern. *)
Definition Regex := list Atom.

(** Whether the string starts with the code unit. *)
Definition startsWith (c : codeUnit) (s : jsstring) : bool :=
  match s with
  | [] => false
  | d :: _ => d =? c
  end.

(** [new RegExp(pattern, 'gi')] on the fragment of the pattern grammar
    made of characters that are not syntax characters, identity escapes
    (a backslash before a character that is no letter, digit or
    underscore), [\b] and capturing parentheses; [depth] counts the
    parentheses that are open.  [None] stands for every other pattern,
    among them all those the constructor rejects with a SyntaxError. *)
Fixpoint compileFrom (depth : nat) (pattern : jsstring) : option Regex :=
  match pattern with
  | [] => match depth with O => Some [] | S _ => None end
  | c :: rest =>
      if c =? backslash then
        match rest with
        | [] => None
        | e :: rest' =>
            if e =? 98 then option_map (cons WordBoundary) (compileFrom depth rest')
            else if isWordChar e then None
            else option_map (cons (Char e)) (compileFrom depth rest')
        end
      else if c =? 40 then
        if startsWith 63 rest then None
        else compileFrom (S depth) rest
      else if c =? 41 then
        match depth with
        | O => None
        | S d => compileFrom d rest
        end
      else if isSyntaxCharacter c then None
      else option_map (cons (Char c)) (compileFrom depth rest)
  end.

Definition compile (pattern : jsstring) : option Regex := compileFrom 0 pattern.

(** Whether there is a word character at a position: [None] stands for a
    position past either end of the input. *)
Definition optWordChar (c : option codeUnit) : bool :=
  match c with
  | Some c => isWordChar c
  | None => false
  end.

(** The [\b] assertion between the code unit before the current position
    and the one at it. *)
Definition isWordBoundary (before after : option codeUnit) : bool :=
  xorb (optWordChar before) (optWordChar after).

(** The compiled form of ['\\b(' + escapeRegex(term) + ')\\b']. *)
Definition wholeWordRegex (term : jsstring) : Regex :=
  WordBoundary :: map Char term ++ [WordBoundary].

(** The compiled form of ['(' + escapeRegex(term) + ')\\b']. *)
Definition suffixRegex (term : jsstring) : Regex :=
  map Char term ++ [WordBoundary].

(** ** The translator object and its collaborators *)

(** A [{ [key: string]: string }] object as an object literal or
    [JSON.parse] gives it: its own enumerable properties, names with their
    values, in the order [for (const key in ...)] visits them.  What such
    an object inherits comes from [Object.prototype] and is not
    enumerable. *)
Definition table := list (jsstring * jsstring).

(** [object[name]] among the own properties: the value of the first
    property of that name, [None] when there is none. *)
Fixpoint ownProperty (object : table) (name : jsstring) : option jsstring :=
  match object with
  | [] => None
  | (key, value) :: object' =>
      if strictEq key name then Some value else ownProperty object' name
  end.

(** [TranslationMapInterface]: the two tables of a translation map, each
    [None] when the object has no such property. *)
Record TranslationMapInterface : Type := {
  words : option table;
  suffixes : option table
}.

(** A language token as it is passed around at run time: a string, or
    [None] for [undefined]. *)
Definition token := option jsstring.

(** [DoggoTranslatorConfig]. *)
Record DoggoTranslatorConfig : Type := {
  languageToken : token;
  userTranslationsMap : option TranslationMapInterface
}.

(** The calls the translator makes to its collaborators. *)
Inductive Call : Type :=
| LogError (message : jsstring)
| LoadLibraryTranslations (requested : token)
| SetTranslationsMap (map : TranslationMapInterface)
| GetTranslationsMap.

(** A [DoggoTranslator] instance: its private [languageToken] field, the
    map its [localeLoaderService] holds, and the calls made so far to the
    collaborators, oldest first. *)
Record DoggoTranslator : Type := {
  this_languageToken : token;
  loader_translationsMap : TranslationMapInterface;
  calls : list Call
}.

(** How a method call ends.  [Unsupported] is the end of a run that built
    a pattern outside the fragment [compile] covers. *)
Inductive Outcome (A : Type) : Type :=
| Returned (a : A)
| Thrown (message : jsstring)
| Unsupported.

Arguments Returned {A} a.
Arguments Thrown {A} message.
Arguments Unsupported {A}.

(** Methods: functions from the instance before the call to the outcome
    and the instance after it. *)
Definition M (A : Type) : Type := DoggoTranslator -> Outcome A * DoggoTranslator.

(** [return a]. *)
Definition ret {A : Type} (a : A) : M A := fun this => (Returned a, this).

(** One statement after the other: what follows a call that throws is not
    run. *)
Definition bind {A B : Type} (m : M A) (k : A -> M B) : M B :=
  fun this =>
    match m this with
    | (Returned a, this') => k a this'
    | (Thrown message, this') => (Thrown message, this')
    | (Unsupported, this') => (Unsupported, this')
    end.

Notation "x <- m ;; k" := (bind m (fun x => k))
  (at level 61, m at next level, right associativity).
Notation "m ;; k" := (bind m (fun _ => k))
  (at level 61, right associativity).

(** A call to a collaborator, put at the end of the calls made. *)
Definition record (c : Call) : M unit :=
  fun this =>
    (Returned tt,
     {| this_languageToken := this_languageToken this;
        loader_translationsMap := loader_translationsMap this;
        calls := calls this ++ [c] |}).

(** A call that ends as [o] does and leaves the instance as it is. *)
Definition lift {A : Type} (o : Outcome A) : M A := fun this => (o, this).

(** The message of the [TypeError] thrown by a call of a value that is no
    function. *)
Definition typeError : jsstring := js "TypeError".

(** [object.hasOwnProperty(key)].  The method called is what the property
    lookup finds.  When the object has an own property named
    [hasOwnProperty] that is it: a string, and calling it throws a
    [TypeError].  Otherwise it is the built-in method, which tells whether
    [key] names an own property. *)
Definition hasOwnProperty (object : table) (key : jsstring) : Outcome bool :=
  match ownProperty object (js "hasOwnProperty") with
  | Some _ => Thrown typeError
  | None =>
      Returned (match ownProperty object key with
                | Some _ => true
                | None => false
                end)
  end.

(** [this.languageToken = value]. *)
Definition assignLanguageToken (value : token) : M unit :=
  fun this =>
    (Returned tt,
     {| this_languageToken := value;
        loader_translationsMap := loader_translationsMap this;
        calls := calls this |}).

(** ** Strings and maps of ASCII characters *)

(** Upper-casing of the ASCII letters, every other code unit kept: what
    [toUpperCase] computes on a string of ASCII code units. *)
Definition asciiToUpper (s : jsstring) : jsstring :=
  map (fun c => if inRange 97 122 c then c - 32 else c) s.

(** A string of ASCII code units. *)
Definition isAscii (s : jsstring) : bool := forallb (fun c => c <? 128) s.

(** An upper-casing function that does on ASCII strings what the
    platform's does. *)
Definition UpperCasesAscii (toUpperCase : jsstring -> jsstring) : Prop :=
  forall s, isAscii s = true -> toUpperCase s = asciiToUpper s.

(** A pattern atom that is no character outside ASCII. *)
Definition atomAscii (a : Atom) : bool :=
  match a with
  | WordBoundary => true
  | Char c => c <? 128
  end.

(** The entries a [for ... in] loop visits in a table that may be
    [undefined]. *)
Definition entries (t : option table) : table :=
  match t with
  | Some entries => entries
  | None => []
  end.

(** A table with an own property named [hasOwnProperty], which stands in
    the way of the built-in method. *)
Definition shadowsHasOwnProperty (t : table) : bool :=
  match ownProperty t (js "hasOwnProperty") with
  | Some _ => true
  | None => false
  end.

(** A map neither table of which has an own property named
    [hasOwnProperty]: the guard of both loops is the built-in method. *)
Definition builtInGuard (map : TranslationMapInterface) : bool :=
  negb (shadowsHasOwnProperty (entries (words map)))
  && negb (shadowsHasOwnProperty (entries (suffixes map))).

(** A table of ASCII strings. *)
Definition tableAscii (t : table) : bool :=
  forallb (fun e => isAscii (fst e) && isAscii (snd e)) t.

(** A map of ASCII strings. *)
Definition mapAscii (map : TranslationMapInterface) : bool :=
  tableAscii (entries (words map)) && tableAscii (entries (suffixes map)).

(** A map with a [words] table only. *)
Definition wordsOnly (t : table) : TranslationMapInterface :=
  {| words := Some t; suffixes := None |}.

(** A map with a [suffixes] table only. *)
Definition suffixesOnly (t : table) : TranslationMapInterface :=
  {| words := None; suffixes := Some t |}.

(** Goals on code units: tests turned into (in)equalities, for [lia]. *)
Ltac bool_arith :=
  unfold inEscapeClass, isWhiteSpace, isWordChar, isSyntaxCharacter, inRange,
    backslash in *;
  repeat match goal with
         | H : _ = false |- _ => apply not_true_iff_false in H
         | |- _ = false => apply not_true_iff_false; intro
         end;
  repeat match goal with
         | H : context [_ = true] |- _ =>
             progress rewrite ?orb_true_iff, ?andb_true_iff, ?N.eqb_eq, ?N.leb_le in H
         end;
  rewrite ?orb_true_iff, ?andb_true_iff, ?N.eqb_eq, ?N.leb_le;
  try lia.

Section Translator.

(** [String.prototype.toUpperCase], the platform's Unicode upper-casing. *)
Variable toUpperCase : jsstring -> jsstring.

(** Canonicalize of the pattern matcher under the [i] flag (no [u] flag). *)
Definition canonicalize (ch : codeUnit) : codeUnit :=
  match toUpperCase [ch] with
  | [cu] => if (128 <=? ch) && (cu <? 128) then ch else cu
  | _ => ch
  end.

(** Matching a compiled pattern at the current position: [before] is the
    code unit to the left, [s] the input from the position on.  The result
    is the matched text and the input after it. *)
Fixpoint matchAtoms (re : Regex) (before : option codeUnit) (s : jsstring)
  : option (jsstring * jsstring) :=
  match re with
  | [] => Some ([], s)
  | WordBoundary :: re' =>
      if isWordBoundary before (hd_error s) then matchAtoms re' before s
      else None
  | Char t :: re' =>
      match s with
      | [] => None
      | c :: s' =>
          if canonicalize t =? canonicalize c then
            match matchAtoms re' (Some c) s' with
            | Some (m, rest) => Some (c :: m, rest)
            | None => None
            end
          else None
      end
  end.

(** The matched text and the rest make up the input: the replacement loop
    below goes on with a shorter input after a match that is not empty. *)
Lemma matchAtoms_app re : forall before s m rest,
  matchAtoms re before s = Some (m, rest) -> s = m ++ rest.
Proof.
  induction re as [|a re IH]; intros before s m rest H; simpl in H.
  - now inversion H.
  - destruct a as [|t].
    + destruct (isWordBoundary before (hd_error s)); [eauto | discriminate].
    + destruct s as [|c s']; [discriminate|].
      destruct (canonicalize t =? canonicalize c); [|discriminate].
      destruct (matchAtoms re (Some c) s') as [[m' r']|] eqn:E; [|discriminate].
      inversion H; subst. simpl. f_equal. eauto.
Qed.

(** The code unit before the position that follows a match. *)
Definition lastBefore (before : option codeUnit) (m : jsstring) : option codeUnit :=
  match m with
  | [] => before
  | _ :: _ => Some (last m 0)
  end.

(** A value together with the equation that it is the value of [a]. *)
Definition inspect {A : Type} (a : A) : {b : A | a = b} := exist _ a eq_refl.

(** [input.replace(re, callback)] for a global pattern, from the current
    position on.  A match is replaced by the callback's result and the
    search resumes after it; after an empty match, and where nothing
    matches, the code unit at the position is kept and the search moves
    one code unit on. *)
Equations? replaceFrom (re : Regex) (callback : jsstring -> jsstring)
  (before : option codeUnit) (s : jsstring) : jsstring by wf (List.length s) lt :=
  replaceFrom re callback before s with inspect (matchAtoms re before s) := {
    | exist _ (Some (c :: m, rest)) _ =>
        callback (c :: m) ++ replaceFrom re callback (lastBefore before (c :: m)) rest
    | exist _ (Some ([], _)) _ with s := {
        | [] => callback []
        | c :: s' => callback [] ++ c :: replaceFrom re callback (Some c) s' }
    | exist _ None _ with s := {
        | [] => []
        | c :: s' => c :: replaceFrom re callback (Some c) s' }
  }.
Proof.
  all: try (simpl; lia).
  apply matchAtoms_app in e; subst; rewrite length_app; simpl; lia.
Qed.

(** [input.replace(re, callback)] for a global pattern [re]: the search
    starts at index 0, where nothing precedes the position. *)
Definition replaceAll (re : Regex) (callback : jsstring -> jsstring)
  (input : jsstring) : jsstring :=
  replaceFrom re callback None input.

(** ** Case restoration *)

(** [capitalizeFirstCharacter]: [target.charAt(0).toUpperCase()] followed
    by [target.slice(1)]. *)
Definition capitalizeFirstCharacter (target : jsstring) : jsstring :=
  let firstCharacterCapitalized := toUpperCase (firstn 1 target) in
  let restOfTheWord := skipn 1 target in
  firstCharacterCapitalized ++ restOfTheWord.

(** The replacement callback of [translateWholeWord]. *)
Definition wholeWordCallback (replace match_ : jsstring) : jsstring :=
  if strictEq match_ (toUpperCase match_) then toUpperCase replace
  else if strictEq match_ (capitalizeFirstCharacter match_)
       then capitalizeFirstCharacter replace
       else replace.

(** The replacement callback of [transformSuffixes]. *)
Definition suffixCallback (replace match_ : jsstring) : jsstring :=
  if strictEq match_ (toUpperCase match_) then toUpperCase replace
  else replace.

(** ** Replacing one term *)

(** [translateWholeWord]: the pattern is ['\b(' + regex + ')\b'] with
    flags [gi].  The result is [None] when the pattern built is outside
    the fragment [compile] covers. *)
Definition translateWholeWord (input regex replace : jsstring) : option jsstring :=
  let regex := escapeRegex regex in
  match compile (js "\b(" ++ regex ++ js ")\b") with
  | Some re => Some (replaceAll re (wholeWordCallback replace) input)
  | None => None
  end.

(** [transformSuffixes]: the pattern is ['(' + regex + ')\b'], flags [gi]. *)
Definition transformSuffixes (input regex replace : jsstring) : option jsstring :=
  let regex := escapeRegex regex in
  match compile (js "(" ++ regex ++ js ")\b") with
  | Some re => Some (replaceAll re (suffixCallback replace) input)
  | None => None
  end.

(** ** Replacing by a table *)

(** The two [for ... in] loops: [entries] are the properties of [object]
    still to visit.  Each visit calls [object.hasOwnProperty(key)] first; a
    visit that passes the guard makes one pass over the sentence the
    previous pass produced. *)
Fixpoint forEachPair (translate : jsstring -> jsstring -> jsstring -> option jsstring)
  (object entries : table) (reverse : bool) (sourceSentence : jsstring)
  : Outcome jsstring :=
  match entries with
  | [] => Returned sourceSentence
  | (key, value) :: entries' =>
      match hasOwnProperty object key with
      | Returned true =>
          match (if negb reverse then translate sourceSentence key value
                 else translate sourceSentence value key) with
          | Some sourceSentence' =>
              forEachPair translate object entries' reverse sourceSentence'
          | None => Unsupported
          end
      | Returned false => forEachPair translate object entries' reverse sourceSentence
      | Thrown message => Thrown message
      | Unsupported => Unsupported
      end
  end.

(** [replaceWholeWords].  [words] is [None] when the map has no such
    property: a [for ... in] over [undefined] runs no iteration. *)
Definition replaceWholeWords (words : option table) (reverse : bool)
  (sourceSentence : jsstring) : Outcome jsstring :=
  match words with
  | Some words => forEachPair translateWholeWord words words reverse sourceSentence
  | None => Returned sourceSentence
  end.

(** [replaceSuffixes]. *)
Definition replaceSuffixes (suffixes : table) (reverse : bool)
  (sourceSentence : jsstring) : Outcome jsstring :=
  forEachPair transformSuffixes suffixes suffixes reverse sourceSentence.

(** ** The collaborators

    [TokensService], [LocaleLoaderService] and [ErrorService] are used by
    the class and are not part of it.  The values of the two members of
    [LANGUAGE_TOKENS_ENUM] the class names, the catalog's membership test
    and the map the loader holds after a library load are taken as they
    come. *)

Variable english : jsstring.
Variable userDefined : jsstring.

(** [TokensService.languageAvailable]. *)
Variable tokenAvailable : token -> bool.

(** The map [localeLoaderService] holds after
    [loadLibraryTranslations(token)], from the token and the map held
    before. *)
Variable libraryTranslations : token -> TranslationMapInterface -> TranslationMapInterface.

(** The map a new [LocaleLoaderService] holds. *)
Variable unloaded : TranslationMapInterface.

(** Modelled from the spec: [ErrorService.logError], which the spec gives
    as non-fatal and informational: the message is handed over and the
    caller goes on. *)
Definition logError (message : jsstring) : M unit := record (LogError message).

(** Modelled from the spec: [ErrorService.throw], which the spec gives as
    fatal: it aborts the current operation with the message. *)
Definition throw {A : Type} (message : jsstring) : M A :=
  fun this => (Thrown message, this).

(** Modelled from the spec: [loadLibraryTranslations] of the Map Loader,
    which populates the loader's active map for the token asked for. *)
Definition loadLibraryTranslations (requested : token) : M unit :=
  fun this =>
    (Returned tt,
     {| this_languageToken := this_languageToken this;
        loader_translationsMap := libraryTranslations requested (loader_translationsMap this);
        calls := calls this ++ [LoadLibraryTranslations requested] |}).

(** Modelled from the spec: [setTranslationsMap] of the Map Loader, which
    installs the map it is given. *)
Definition setTranslationsMap (map : TranslationMapInterface) : M unit :=
  fun this =>
    (Returned tt,
     {| this_languageToken := this_languageToken this;
        loader_translationsMap := map;
        calls := calls this ++ [SetTranslationsMap map] |}).

(** Modelled from the spec: [getTranslationsMap] of the Map Loader, which
    returns the currently active map. *)
Definition getTranslationsMap : M TranslationMapInterface :=
  fun this =>
    (Returned (loader_translationsMap this),
     {| this_languageToken := this_languageToken this;
        loader_translationsMap := loader_translationsMap this;
        calls := calls this ++ [GetTranslationsMap] |}).

(** ** The class *)

(** [defaultResponse] and [defaultLanguage]. *)
Definition defaultResponse : jsstring := js "Bork".

Definition defaultLanguage : jsstring := english.

(** [translateSentence]. *)
Definition translateSentence (sourceSentence : jsstring) (reverse : bool) : M jsstring :=
  if strictEq sourceSentence [] then ret defaultResponse
  else
    translationsMap <- getTranslationsMap ;;
    let words := words translationsMap in
    let suffixes := suffixes translationsMap in
    sourceSentence <- lift (replaceWholeWords words reverse sourceSentence) ;;
    match suffixes with
    | Some suffixes => lift (replaceSuffixes suffixes reverse sourceSentence)
    | None => ret sourceSentence
    end.

(** [languageAvailable]. *)
Definition languageAvailable (languageToken : token) : bool :=
  tokenAvailable languageToken.

(** [setLanguage]. *)
Definition setLanguage (languageToken : token) : M unit :=
  if negb (languageAvailable languageToken) then
    logError (js "The language was not found, defaulting to " ++ defaultLanguage) ;;
    assignLanguageToken (Some defaultLanguage) ;;
    loadLibraryTranslations languageToken
  else
    assignLanguageToken languageToken ;;
    loadLibraryTranslations languageToken.

(** [!value] for a value that is a string or [undefined]. *)
Definition notToken (value : token) : bool :=
  match value with
  | None => true
  | Some s => strictEq s []
  end.

(** [!value] for a value that is an object or [undefined]. *)
Definition notObject {A : Type} (value : option A) : bool :=
  match value with
  | None => true
  | Some _ => false
  end.

(** The message of the configuration error. *)
Definition invalidConfigMessage : jsstring :=
  js "Invalid Config Provided. You must provide at least one of the following: "
  ++ [10; 9] ++ js "`languageToken` or `userTranslationsMap`".

(** [configValidation].  The config is [None] when the constructor is
    called without one. *)
Definition configValidation (config : option DoggoTranslatorConfig) : M unit :=
  if match config with
     | None => true
     | Some config => notToken (languageToken config) && notObject (userTranslationsMap config)
     end
  then throw invalidConfigMessage
  else ret tt.

(** [setUpTranslator].  Reading a property of [undefined] throws a
    TypeError. *)
Definition setUpTranslator (config : option DoggoTranslatorConfig) : M unit :=
  match config with
  | None => throw (js "TypeError")
  | Some config =>
      match userTranslationsMap config with
      | None => setLanguage (languageToken config)
      | Some map =>
          setLanguage (Some userDefined) ;;
          setTranslationsMap map
      end
  end.

(** The instance before the constructor body runs. *)
Definition newInstance : DoggoTranslator :=
  {| this_languageToken := None;
     loader_translationsMap := unloaded;
     calls := [] |}.

(** [constructor]. *)
Definition constructor (config : option DoggoTranslatorConfig)
  : Outcome unit * DoggoTranslator :=
  (configValidation config ;; setUpTranslator config) newInstance.

(** ** Escaping, matches and what replaces them *)

(** The characters the escaping rule names, [- [ ] { } ( ) * + ? . , \ ^ $ | #],
    and white space. *)
Definition mustBeEscaped (c : codeUnit) : bool :=
  existsb (N.eqb c) (js "-[]{}()*+?.,\^$|#") || isWhiteSpace c.

(** Two strings are the same to a pattern with the [i] flag: code unit by
    code unit they canonicalize alike. *)
Definition sameLetters (a b : jsstring) : Prop :=
  map canonicalize a = map canonicalize b.

(** [m], found after [before] and followed by [rest], is a match of the
    term at the end of a word: it is the term letter by letter, case
    ignored, and a word boundary follows it. *)
Definition SuffixMatch (term : jsstring) (before : option codeUnit)
  (m rest : jsstring) : Prop :=
  sameLetters term m
  /\ isWordBoundary (lastBefore before m) (hd_error rest) = true.

(** [m] is a match of the term as a whole word: a word boundary comes
    before it as well. *)
Definition WholeWordMatch (term : jsstring) (before : option codeUnit)
  (m rest : jsstring) : Prop :=
  isWordBoundary before (hd_error (m ++ rest)) = true
  /\ SuffixMatch term before m rest.

(** Equality of strings is decidable. *)
Definition jsstring_eq_dec : forall a b : jsstring, {a = b} + {a <> b} :=
  list_eq_dec N.eq_dec.

(** The text that takes the place of a whole-word match: the replacement
    in upper case for a match that is its own upper-cased form, else the
    replacement with its first character capitalized for a match that is
    its own capitalized form, else the replacement as it is. *)
Definition wholeWordRestored (replace m : jsstring) : jsstring :=
  if jsstring_eq_dec m (toUpperCase m) then toUpperCase replace
  else if jsstring_eq_dec m (capitalizeFirstCharacter m)
       then capitalizeFirstCharacter replace
       else replace.

(** The text that takes the place of a suffix match: the replacement in
    upper case for a match that is its own upper-cased form, else the
    replacement as it is. *)
Definition suffixRestored (replace m : jsstring) : jsstring :=
  if jsstring_eq_dec m (toUpperCase m) then toUpperCase replace else replace.

(** ** Sentences, tables and their passes *)

(** Whether the pattern matches at the current position or at a later
    one. *)
Fixpoint containsMatchFrom (re : Regex) (before : option codeUnit) (s : jsstring)
  : bool :=
  match matchAtoms re before s with
  | Some _ => true
  | None =>
      match s with
      | [] => false
      | c :: s' => containsMatchFrom re (Some c) s'
      end
  end.

(** Whether the pattern matches somewhere in the sentence. *)
Definition containsMatch (re : Regex) (sentence : jsstring) : bool :=
  containsMatchFrom re None sentence.

(** The term a table entry is searched by: the property name forward, the
    value in reverse. *)
Definition searchTerm (reverse : bool) (entry : jsstring * jsstring) : jsstring :=
  if reverse then snd entry else fst entry.

(** The term it is replaced by: the value forward, the property name in
    reverse. *)
Definition replacementTerm (reverse : bool) (entry : jsstring * jsstring) : jsstring :=
  if reverse then fst entry else snd entry.

(** Whether some entry of the map, taken in the given direction, matches
    somewhere in the sentence: a word as a whole word, a suffix at the end
    of a word. *)
Definition someEntryMatches (map : TranslationMapInterface) (reverse : bool)
  (sentence : jsstring) : bool :=
  existsb (fun e => containsMatch (wholeWordRegex (searchTerm reverse e)) sentence)
    (entries (words map))
  || existsb (fun e => containsMatch (suffixRegex (searchTerm reverse e)) sentence)
       (entries (suffixes map)).

(** One pass of a table loop, as a function of the sentence. *)
Definition wholeWordPass (reverse : bool) (sentence : jsstring)
  (entry : jsstring * jsstring) : jsstring :=
  replaceAll (wholeWordRegex (searchTerm reverse entry))
    (wholeWordCallback (replacementTerm reverse entry)) sentence.

(** The same for the suffix loop. *)
Definition suffixPass (reverse : bool) (sentence : jsstring)
  (entry : jsstring * jsstring) : jsstring :=
  replaceAll (suffixRegex (searchTerm reverse entry))
    (suffixCallback (replacementTerm reverse entry)) sentence.

(** What [translateSentence] returns for a sentence that is not empty. *)
Definition translation (map : TranslationMapInterface) (reverse : bool)
  (sentence : jsstring) : jsstring :=
  let afterWords := fold_left (wholeWordPass reverse) (entries (words map)) sentence in
  match suffixes map with
  | Some t => fold_left (suffixPass reverse) t afterWords
  | None => afterWords
  end.

(** The instance after [translateSentence] has read the map. *)
Definition afterRead (this : DoggoTranslator) : DoggoTranslator :=
  {| this_languageToken := this_languageToken this;
     loader_translationsMap := loader_translationsMap this;
     calls := calls this ++ [GetTranslationsMap] |}.

(** ** Words of a sentence and what the passes make of them *)

(** [translateWholeWord]'s replacement from a position of the input on. *)
Definition wholeWordFrom (term replace : jsstring)
  : option codeUnit -> jsstring -> jsstring :=
  replaceFrom (wholeWordRegex term) (wholeWordCallback replace).

(** The same for [transformSuffixes]. *)
Definition suffixFrom (term replace : jsstring)
  : option codeUnit -> jsstring -> jsstring :=
  replaceFrom (suffixRegex term) (suffixCallback replace).

(** A word: a run of word characters that is not empty. *)
Definition isWord (w : jsstring) : bool :=
  match w with
  | [] => false
  | _ :: _ => forallb isWordChar w
  end.

(** [sameLetters], decided. *)
Definition sameLettersb (a b : jsstring) : bool :=
  strictEq (map canonicalize a) (map canonicalize b).

(** What the pass for one entry makes of a word of the sentence. *)
Definition wordPass (reverse : bool) (w : jsstring) (entry : jsstring * jsstring)
  : jsstring :=
  if sameLettersb (searchTerm reverse entry) w
  then wholeWordCallback (replacementTerm reverse entry) w
  else w.

(** What the passes of a table make of a word, one after the other. *)
Definition wordPasses (reverse : bool) (t : table) (w : jsstring) : jsstring :=
  fold_left (wordPass reverse) t w.

(** The passes of a table from a position of the input on. *)
Definition passesFrom (reverse : bool) (t : table) (before : option codeUnit)
  (s : jsstring) : jsstring :=
  fold_left
    (fun s e => wholeWordFrom (searchTerm reverse e) (replacementTerm reverse e) before s)
    t s.

(** Every property name and every value of the table is a word. *)
Definition wordTable (t : table) : bool :=
  forallb (fun e => isWord (fst e) && isWord (snd e)) t.

(** Two entries that cannot be taken for one another: their values
    differ, and the property name of neither is the value of the other,
    case ignored. *)
Definition unrelated (e1 e2 : jsstring * jsstring) : bool :=
  negb (sameLettersb (snd e1) (snd e2))
  && negb (sameLettersb (fst e1) (snd e2))
  && negb (sameLettersb (fst e2) (snd e1)).

(** No two entries of the table can be taken for one another. *)
Fixpoint independentEntries (t : table) : bool :=
  match t with
  | [] => true
  | e :: t' => forallb (unrelated e) t' && independentEntries t'
  end.

(** Whether a value of the table occurs in the sentence as a whole word,
    from a position on. *)
Definition valueOccursFrom (t : table) (before : option codeUnit) (s : jsstring)
  : bool :=
  existsb (fun e => containsMatchFrom (wholeWordRegex (snd e)) before s) t.

(** The same, in the whole sentence. *)
Definition valueOccurs (t : table) (sentence : jsstring) : bool :=
  valueOccursFrom t None sentence.

(** The sentences, by their words: the empty sentence, a character that
    is not a word character before a sentence, a word alone, and a word
    before such a character and a sentence. *)
Inductive Tokenized : jsstring -> Prop :=
| tokens_end : Tokenized []
| tokens_separator c s :
    isWordChar c = false -> Tokenized s -> Tokenized (c :: s)
| tokens_last_word w :
    isWord w = true -> Tokenized w
| tokens_word w c s :
    isWord w = true -> isWordChar c = false -> Tokenized s ->
    Tokenized (w ++ c :: s).

(** A sentence without a capital letter of the alphabet: each of its words
    is of the lowercase pattern. *)
Definition lowercaseOnly (s : jsstring) : bool :=
  forallb (fun c => negb (inRange 65 90 c)) s.

(** ** The instance after a call, and what a config supplies *)

(** The instance after a call to [setLanguage] that has found the token
    in the catalog. *)
Definition afterKnownLanguage (requested : token) (this : DoggoTranslator)
  : DoggoTranslator :=
  {| this_languageToken := requested;
     loader_translationsMap := libraryTranslations requested (loader_translationsMap this);
     calls := calls this ++ [LoadLibraryTranslations requested] |}.

(** The instance after a call to [setLanguage] that has not. *)
Definition afterUnknownLanguage (requested : token) (this : DoggoTranslator)
  : DoggoTranslator :=
  {| this_languageToken := Some defaultLanguage;
     loader_translationsMap := libraryTranslations requested (loader_translationsMap this);
     calls := calls this
              ++ [LogError (js "The language was not found, defaulting to " ++ english);
                  LoadLibraryTranslations requested] |}.

(** No call to [loadLibraryTranslations] among the calls made. *)
Definition loaderBypassed (this : DoggoTranslator) : Prop :=
  forall requested, ~ In (LoadLibraryTranslations requested) (calls this).

(** A config supplies a language token when the property holds a string
    that is not empty (an empty string is as good as none to [!]). *)
Definition suppliesToken (config : DoggoTranslatorConfig) : Prop :=
  exists s, languageToken config = Some s /\ s <> [].

(** A config supplies a custom map when the property holds one. *)
Definition suppliesMap (config : DoggoTranslatorConfig) : Prop :=
  exists map, userTranslationsMap config = Some map.

(** The config value supplies neither: there is no config, or it has
    neither of the two. *)
Definition suppliesNeither (config : option DoggoTranslatorConfig) : Prop :=
  match config with
  | None => True
  | Some config => ~ suppliesToken config /\ ~ suppliesMap config
  end.

(** ** More of the class's behaviour and its caller *)

(** A table with the two sides of every entry exchanged, in the same
    order. *)
Definition swapEntries (t : table) : table :=
  map (fun e => (snd e, fst e)) t.

(** A map with both of its tables exchanged. *)
Definition swapMap (map : TranslationMapInterface) : TranslationMapInterface :=
  {| words := option_map swapEntries (words map);
     suffixes := option_map swapEntries (suffixes map) |}.

(** No entry of the map, taken in the given direction, is replaced by the
    empty string. *)
Definition replacementsNotEmpty (map : TranslationMapInterface) (reverse : bool)
  : bool :=
  forallb (fun e => negb (strictEq (replacementTerm reverse e) []))
    (entries (words map))
  && forallb (fun e => negb (strictEq (replacementTerm reverse e) []))
       (entries (suffixes map)).

(** [examples/node/index.js]: a translator is built without a config and
    two translations are handed to [console.warn].  The result is how the
    script ends and the lines it has printed. *)
Definition exampleScript : Outcome unit * list jsstring :=
  match constructor None with
  | (Returned _, myTranslator) =>
      match translateSentence (js "Testing this, bark!") false myTranslator with
      | (Returned first, myTranslator') =>
          match translateSentence (js "Hello friend! I hope you have a great day!")
                  false myTranslator' with
          | (Returned second, _) => (Returned tt, [first; second])
          | (Thrown message, _) => (Thrown message, [first])
          | (Unsupported, _) => (Unsupported, [first])
          end
      | (Thrown message, _) => (Thrown message, [])
      | (Unsupported, _) => (Unsupported, [])
      end
  | (Thrown message, _) => (Thrown message, [])
  | (Unsupported, _) => (Unsupported, [])
  end.

(** No property name of the table is, case ignored, a value of the
    table. *)
Definition noValueIsKey (t : table) : bool :=
  forallb (fun e => forallb (fun e' => negb (sameLettersb (fst e') (snd e))) t) t.

(** The characters of a sentence that are not word characters, in
    order. *)
Definition separators (s : jsstring) : jsstring :=
  filter (fun c => negb (isWordChar c)) s.

(** * Properties *)

(** ** The replacement loop, one step at a time *)

Lemma replaceFrom_eq re callback before s :
  replaceFrom re callback before s =
  match matchAtoms re before s with
  | Some (c :: m, rest) =>
      callback (c :: m)
      ++ replaceFrom re callback (lastBefore before (c :: m)) rest
  | _ =>
      match matchAtoms re before s with
      | Some _ => callback []
      | None => []
      end
      ++ match s with
         | [] => []
         | c :: s' => c :: replaceFrom re callback (Some c) s'
         end
  end.
Proof.
  rewrite replaceFrom_equation_1.
  remember (inspect (matchAtoms re before s)) as i eqn:Hi.
  destruct i as [o e]. clear Hi.
  destruct o as [[[|c m] rest]|]; destruct s;
    rewrite ?replaceFrom_clause_1_equation_1, ?replaceFrom_clause_1_equation_2,
      ?replaceFrom_clause_1_equation_3, ?replaceFrom_clause_1_clause_2_equation_1,
      ?replaceFrom_clause_1_clause_2_equation_2, ?replaceFrom_clause_1_clause_3_equation_1,
      ?replaceFrom_clause_1_clause_3_equation_2;
    rewrite e; simpl; rewrite ?app_nil_r; reflexivity.
Qed.

Lemma strictEq_true a : forall b, strictEq a b = true <-> a = b.
Proof.
  induction a as [|x a IH]; intros [|y b]; simpl; split; intro H;
    try reflexivity; try discriminate.
  - apply andb_true_iff in H as [Hx Hab].
    apply N.eqb_eq in Hx. apply IH in Hab. now subst.
  - inversion H; subst. rewrite N.eqb_refl. simpl. now apply IH.
Qed.

Lemma strictEq_refl a : strictEq a a = true.
Proof. now apply strictEq_true. Qed.

(** ** Escaping and the patterns built *)

Lemma escaped_literal c :
  inEscapeClass c = true -> (c =? 98) = false /\ isWordChar c = false.
Proof. intro H. split; bool_arith. Qed.

Lemma unescaped_literal c :
  inEscapeClass c = false ->
  (c =? backslash) = false /\ (c =? 40) = false /\ (c =? 41) = false
  /\ isSyntaxCharacter c = false /\ c <> 63.
Proof. intro H. repeat split; bool_arith. Qed.

Lemma compileFrom_escapeRegex term : forall depth tail,
  compileFrom depth (escapeRegex term ++ tail)
  = option_map (app (map Char term)) (compileFrom depth tail).
Proof.
  induction term as [|c term IH]; intros depth tail; simpl.
  - now destruct (compileFrom depth tail).
  - destruct (inEscapeClass c) eqn:E.
    + destruct (escaped_literal c E) as [Hb Hw]. simpl.
      rewrite Hb, Hw, IH. now destruct (compileFrom depth tail).
    + destruct (unescaped_literal c E) as (H1 & H2 & H3 & H4 & _). simpl.
      rewrite H1, H2, H3, H4, IH. now destruct (compileFrom depth tail).
Qed.

Lemma escapeRegex_not_group_modifier term tail :
  startsWith 63 tail = false -> startsWith 63 (escapeRegex term ++ tail) = false.
Proof.
  intro H. destruct term as [|c term]; simpl; [exact H|].
  destruct (inEscapeClass c) eqn:E; simpl; [reflexivity|].
  destruct (unescaped_literal c E) as (_ & _ & _ & _ & Hn).
  now apply N.eqb_neq.
Qed.

Lemma compile_wholeWord term :
  compile (js "\b(" ++ escapeRegex term ++ js ")\b") = Some (wholeWordRegex term).
Proof.
  unfold compile, wholeWordRegex.
  change (js "\b(" ++ escapeRegex term ++ js ")\b")
    with (92 :: 98 :: 40 :: escapeRegex term ++ [41; 92; 98]).
  cbn [compileFrom]. change (92 =? backslash) with true.
  change (98 =? 98) with true. change (40 =? backslash) with false.
  change (40 =? 40) with true. cbv iota.
  rewrite escapeRegex_not_group_modifier by reflexivity.
  rewrite compileFrom_escapeRegex. reflexivity.
Qed.

Lemma compile_suffix term :
  compile (js "(" ++ escapeRegex term ++ js ")\b") = Some (suffixRegex term).
Proof.
  unfold compile, suffixRegex.
  change (js "(" ++ escapeRegex term ++ js ")\b")
    with (40 :: escapeRegex term ++ [41; 92; 98]).
  cbn [compileFrom]. change (40 =? backslash) with false.
  change (40 =? 40) with true. cbv iota.
  rewrite escapeRegex_not_group_modifier by reflexivity.
  rewrite compileFrom_escapeRegex. reflexivity.
Qed.

Lemma inEscapeClass_mustBeEscaped c : inEscapeClass c = mustBeEscaped c.
Proof.
  unfold inEscapeClass, mustBeEscaped. cbn [js existsb N_of_ascii].
  rewrite orb_false_r, !(N.eqb_sym c), !orb_assoc. reflexivity.
Qed.

(** C8: [escapeRegex] puts a backslash before every occurrence of
    [- [ ] { } ( ) * + ? . , \ ^ $ | #] and of a white-space character and
    leaves every other code unit as it is; the two patterns the class
    builds from an escaped term are therefore always well formed, and
    match the term's own code units and nothing else. *)
Theorem escapeRegex_escapes (term : jsstring) :
  escapeRegex term
  = flat_map (fun c => if mustBeEscaped c then [backslash; c] else [c]) term
  /\ compile (js "\b(" ++ escapeRegex term ++ js ")\b") = Some (wholeWordRegex term)
  /\ compile (js "(" ++ escapeRegex term ++ js ")\b") = Some (suffixRegex term).
Proof.
  split; [|split; [apply compile_wholeWord | apply compile_suffix]].
  induction term as [|c term IH]; simpl; [reflexivity|].
  rewrite <- inEscapeClass_mustBeEscaped, IH.
  now destruct (inEscapeClass c).
Qed.

(** ** Matches and what replaces them *)

Lemma strictEq_dec a b A (x y : A) :
  (if strictEq a b then x else y) = (if jsstring_eq_dec a b then x else y).
Proof.
  destruct (jsstring_eq_dec a b) as [->|Hne].
  - now rewrite strictEq_refl.
  - destruct (strictEq a b) eqn:E; [|reflexivity].
    now apply strictEq_true in E.
Qed.

Lemma wholeWordCallback_restored replace m :
  wholeWordCallback replace m = wholeWordRestored replace m.
Proof.
  unfold wholeWordCallback, wholeWordRestored. now rewrite !strictEq_dec.
Qed.

Lemma suffixCallback_restored replace m :
  suffixCallback replace m = suffixRestored replace m.
Proof.
  unfold suffixCallback, suffixRestored. now rewrite !strictEq_dec.
Qed.

Lemma lastBefore_cons before c m :
  lastBefore before (c :: m) = lastBefore (Some c) m.
Proof. now destruct m. Qed.

Lemma matchAtoms_suffix_sound term : forall before s m rest,
  matchAtoms (suffixRegex term) before s = Some (m, rest) ->
  SuffixMatch term before m rest.
Proof.
  unfold suffixRegex, SuffixMatch, sameLetters.
  induction term as [|t term IH]; intros before s m rest H; simpl in H.
  - destruct (isWordBoundary before (hd_error s)) eqn:E; [|discriminate].
    inversion H; subst. split; [reflexivity | exact E].
  - destruct s as [|c s]; [discriminate|].
    destruct (N.eqb_spec (canonicalize t) (canonicalize c)) as [Hc|Hc]; [|discriminate].
    destruct (matchAtoms (map Char term ++ [WordBoundary]) (Some c) s)
      as [[m' rest']|] eqn:E; [|discriminate].
    inversion H; subst. apply IH in E as [Hm Hb].
    rewrite lastBefore_cons. simpl. split; [congruence | exact Hb].
Qed.

Lemma matchAtoms_suffix_complete term : forall m before rest,
  sameLetters term m ->
  isWordBoundary (lastBefore before m) (hd_error rest) = true ->
  matchAtoms (suffixRegex term) before (m ++ rest) = Some (m, rest).
Proof.
  unfold suffixRegex, sameLetters.
  induction term as [|t term IH]; intros [|c m] before rest Hm Hb;
    try discriminate; simpl.
  - simpl in Hb. now rewrite Hb.
  - simpl in Hm. inversion Hm as [[Hc Hm']]. rewrite Hc, N.eqb_refl.
    rewrite lastBefore_cons in Hb. now rewrite IH.
Qed.

Lemma matchAtoms_suffixRegex term before s m rest :
  matchAtoms (suffixRegex term) before s = Some (m, rest)
  <-> s = m ++ rest /\ SuffixMatch term before m rest.
Proof.
  split.
  - intro H. split; [eapply matchAtoms_app | eapply matchAtoms_suffix_sound]; exact H.
  - intros (-> & Hm & Hb). now apply matchAtoms_suffix_complete.
Qed.

Lemma matchAtoms_wholeWordRegex term before s m rest :
  matchAtoms (wholeWordRegex term) before s = Some (m, rest)
  <-> s = m ++ rest /\ WholeWordMatch term before m rest.
Proof.
  unfold WholeWordMatch.
  change (matchAtoms (wholeWordRegex term) before s)
    with (if isWordBoundary before (hd_error s)
          then matchAtoms (suffixRegex term) before s else None).
  destruct (isWordBoundary before (hd_error s)) eqn:E.
  - rewrite matchAtoms_suffixRegex. split.
    + intros (-> & H). split; [reflexivity | split; assumption].
    + intros (-> & _ & H). split; [reflexivity | assumption].
  - split; [discriminate|]. intros (-> & Hb & _). congruence.
Qed.

Lemma SuffixMatch_nonempty term before m rest :
  term <> [] -> SuffixMatch term before m rest -> m <> [].
Proof.
  intros Hne [Hm _] ->. destruct term; [now apply Hne | discriminate].
Qed.

Lemma replaceFrom_match re callback before m rest :
  m <> [] -> matchAtoms re before (m ++ rest) = Some (m, rest) ->
  replaceFrom re callback before (m ++ rest)
  = callback m ++ replaceFrom re callback (lastBefore before m) rest.
Proof.
  intros Hne H. rewrite replaceFrom_eq, H. now destruct m.
Qed.

Lemma replaceFrom_keep re callback before c s :
  matchAtoms re before (c :: s) = None ->
  replaceFrom re callback before (c :: s) = c :: replaceFrom re callback (Some c) s.
Proof. intro H. now rewrite replaceFrom_eq, H. Qed.

(** ** Sentences without a match *)

Lemma translateWholeWord_eq input term replace :
  translateWholeWord input term replace
  = Some (replaceAll (wholeWordRegex term) (wholeWordCallback replace) input).
Proof. unfold translateWholeWord. now rewrite compile_wholeWord. Qed.

Lemma transformSuffixes_eq input term replace :
  transformSuffixes input term replace
  = Some (replaceAll (suffixRegex term) (suffixCallback replace) input).
Proof. unfold transformSuffixes. now rewrite compile_suffix. Qed.

(** *** The guard of the loops *)

Lemma ownProperty_own key value : forall object,
  In (key, value) object -> ownProperty object key <> None.
Proof.
  induction object as [|[k v] object IH]; simpl; [easy|].
  intros [E|H].
  - injection E as -> ->. now rewrite strictEq_refl.
  - destruct (strictEq k key); [discriminate | now apply IH].
Qed.

Lemma hasOwnProperty_own object key value :
  shadowsHasOwnProperty object = false -> In (key, value) object ->
  hasOwnProperty object key = Returned true.
Proof.
  unfold shadowsHasOwnProperty, hasOwnProperty. intros Hs Hin.
  destruct (ownProperty object (js "hasOwnProperty")); [discriminate|].
  apply ownProperty_own in Hin. now destruct (ownProperty object key).
Qed.

Lemma forEachPair_shadowed translate object rest reverse s :
  shadowsHasOwnProperty object = true -> rest <> [] ->
  forEachPair translate object rest reverse s = Thrown typeError.
Proof.
  unfold shadowsHasOwnProperty. intros Hs Hne.
  destruct rest as [|[key value] rest]; [easy|]. simpl.
  unfold hasOwnProperty.
  now destruct (ownProperty object (js "hasOwnProperty")).
Qed.

Lemma shadowsHasOwnProperty_nonempty t :
  shadowsHasOwnProperty t = true -> t <> [].
Proof. now destruct t. Qed.

Lemma shadowsHasOwnProperty_app t1 t2 :
  shadowsHasOwnProperty (t1 ++ t2)
  = shadowsHasOwnProperty t1 || shadowsHasOwnProperty t2.
Proof.
  unfold shadowsHasOwnProperty.
  induction t1 as [|[k v] t1 IH]; cbn [app ownProperty].
  - reflexivity.
  - now destruct (strictEq k _).
Qed.

(** With the built-in guard, a loop makes the pass of every entry. *)
Lemma forEachPair_passes (translate : jsstring -> jsstring -> jsstring -> option jsstring)
  (pass : bool -> jsstring -> jsstring * jsstring -> jsstring) object reverse :
  (forall s e, (if negb reverse then translate s (fst e) (snd e)
                else translate s (snd e) (fst e)) = Some (pass reverse s e)) ->
  shadowsHasOwnProperty object = false ->
  forall rest s, incl rest object ->
  forEachPair translate object rest reverse s
  = Returned (fold_left (pass reverse) rest s).
Proof.
  intros Hpass Hs rest.
  induction rest as [|[key value] rest IH]; intros s Hin; simpl; [reflexivity|].
  rewrite (hasOwnProperty_own object key value Hs) by (apply Hin; now left).
  generalize (Hpass s (key, value)). cbn [fst snd]. intros ->. apply IH.
  intros e He. apply Hin. now right.
Qed.

Lemma forEachPair_wholeWords object reverse rest s :
  shadowsHasOwnProperty object = false -> incl rest object ->
  forEachPair translateWholeWord object rest reverse s
  = Returned (fold_left (wholeWordPass reverse) rest s).
Proof.
  intros Hs Hin. apply forEachPair_passes; try assumption.
  intros s' e. destruct reverse; simpl; now rewrite translateWholeWord_eq.
Qed.

Lemma forEachPair_suffixes object reverse rest s :
  shadowsHasOwnProperty object = false -> incl rest object ->
  forEachPair transformSuffixes object rest reverse s
  = Returned (fold_left (suffixPass reverse) rest s).
Proof.
  intros Hs Hin. apply forEachPair_passes; try assumption.
  intros s' e. destruct reverse; simpl; now rewrite transformSuffixes_eq.
Qed.

Lemma replaceWholeWords_eq words reverse sentence :
  shadowsHasOwnProperty (entries words) = false ->
  replaceWholeWords words reverse sentence
  = Returned (fold_left (wholeWordPass reverse) (entries words) sentence).
Proof.
  intro Hs. destruct words as [t|]; [|reflexivity].
  apply forEachPair_wholeWords; [exact Hs | apply incl_refl].
Qed.

Lemma replaceSuffixes_eq t reverse sentence :
  shadowsHasOwnProperty t = false ->
  replaceSuffixes t reverse sentence
  = Returned (fold_left (suffixPass reverse) t sentence).
Proof.
  intro Hs. apply forEachPair_suffixes; [exact Hs | apply incl_refl].
Qed.

Lemma replaceWholeWords_shadowed words reverse sentence :
  shadowsHasOwnProperty (entries words) = true ->
  replaceWholeWords words reverse sentence = Thrown typeError.
Proof.
  intro Hs. destruct words as [t|]; [|discriminate].
  apply forEachPair_shadowed; [exact Hs | now apply shadowsHasOwnProperty_nonempty].
Qed.

Lemma replaceSuffixes_shadowed t reverse sentence :
  shadowsHasOwnProperty t = true ->
  replaceSuffixes t reverse sentence = Thrown typeError.
Proof.
  intro Hs.
  apply forEachPair_shadowed; [exact Hs | now apply shadowsHasOwnProperty_nonempty].
Qed.

Lemma builtInGuard_tables map :
  builtInGuard map = true ->
  shadowsHasOwnProperty (entries (words map)) = false
  /\ shadowsHasOwnProperty (entries (suffixes map)) = false.
Proof.
  unfold builtInGuard. intro H. apply andb_true_iff in H as [Hw Hs].
  now rewrite negb_true_iff in Hw, Hs.
Qed.

Lemma builtInGuard_wordsOnly t :
  shadowsHasOwnProperty t = false -> builtInGuard (wordsOnly t) = true.
Proof. unfold builtInGuard. simpl. now intros ->. Qed.

(** *** A call of [translateSentence] *)

Lemma translateSentence_state sentence reverse this :
  sentence <> [] ->
  snd (translateSentence sentence reverse this) = afterRead this.
Proof.
  intro Hne. unfold translateSentence.
  destruct (strictEq sentence []) eqn:E; [now apply strictEq_true in E|].
  unfold bind, getTranslationsMap, lift. simpl.
  destruct (replaceWholeWords _ reverse sentence); try reflexivity.
  now destruct (suffixes (loader_translationsMap this)).
Qed.

Lemma translateSentence_run sentence reverse this :
  builtInGuard (loader_translationsMap this) = true ->
  sentence <> [] ->
  translateSentence sentence reverse this
  = (Returned (translation (loader_translationsMap this) reverse sentence),
     afterRead this).
Proof.
  intros Hguard Hne. apply builtInGuard_tables in Hguard as [Hw Hs].
  unfold translateSentence, translation.
  destruct (strictEq sentence []) eqn:E; [now apply strictEq_true in E|].
  unfold bind, getTranslationsMap, lift. simpl.
  rewrite replaceWholeWords_eq by exact Hw.
  destruct (suffixes (loader_translationsMap this)) as [sf|]; [|reflexivity].
  now rewrite replaceSuffixes_eq by exact Hs.
Qed.

(** X23: with a map one of whose tables has an own property named
    [hasOwnProperty], a call of [translateSentence] on a sentence that is
    not empty throws a [TypeError], in either direction, after the map has
    been read. *)
Theorem translateSentence_throws_with_shadowed_guard (sentence : jsstring)
  (reverse : bool) (this : DoggoTranslator) :
  builtInGuard (loader_translationsMap this) = false ->
  sentence <> [] ->
  translateSentence sentence reverse this = (Thrown typeError, afterRead this).
Proof.
  intros Hguard Hne. unfold translateSentence.
  destruct (strictEq sentence []) eqn:E; [now apply strictEq_true in E|].
  unfold bind, getTranslationsMap, lift. simpl.
  destruct (shadowsHasOwnProperty (entries (words (loader_translationsMap this))))
    eqn:Hw.
  - now rewrite replaceWholeWords_shadowed.
  - rewrite replaceWholeWords_eq by exact Hw.
    unfold builtInGuard in Hguard. rewrite Hw in Hguard. simpl in Hguard.
    apply negb_false_iff in Hguard.
    destruct (suffixes (loader_translationsMap this)) as [t|]; [|discriminate].
    now rewrite replaceSuffixes_shadowed.
Qed.

Lemma replaceFrom_no_match re callback : forall s before,
  containsMatchFrom re before s = false -> replaceFrom re callback before s = s.
Proof.
  induction s as [|c s IH]; intros before H; rewrite replaceFrom_eq;
    simpl in H; destruct (matchAtoms re before _); try discriminate.
  - reflexivity.
  - simpl. f_equal. now apply IH.
Qed.

Lemma fold_pass_no_match (regexOf : jsstring -> Regex)
  (callbackOf : jsstring -> jsstring -> jsstring) reverse t sentence :
  existsb (fun e => containsMatch (regexOf (searchTerm reverse e)) sentence) t = false ->
  fold_left (fun s e => replaceAll (regexOf (searchTerm reverse e))
                          (callbackOf (replacementTerm reverse e)) s) t sentence
  = sentence.
Proof.
  induction t as [|e t IH]; simpl; [reflexivity|].
  intro H. apply orb_false_iff in H as [He Ht].
  unfold replaceAll at 2. rewrite replaceFrom_no_match by exact He. now apply IH.
Qed.

(** C7: [translateSentence] does not return a string for every map the
    constructor takes.  The instance made by
    [new DoggoTranslator({ userTranslationsMap: { words: { hasOwnProperty: 'woof' } } })]
    throws a [TypeError] at the sentence ["bark"], in either direction and
    whatever the collaborators are: the guard
    [words.hasOwnProperty(key)] calls the property of the table. *)
Theorem translateSentence_throws_at_hasOwnProperty_key (reverse : bool) :
  let config :=
    Some {| languageToken := None;
            userTranslationsMap :=
              Some (wordsOnly [(js "hasOwnProperty", js "woof")]) |} in
  fst (constructor config) = Returned tt
  /\ fst (translateSentence (js "bark") reverse (snd (constructor config)))
     = Thrown typeError.
Proof.
  unfold constructor, configValidation, setUpTranslator, setLanguage,
    languageAvailable, bind. simpl.
  destruct (tokenAvailable (Some userDefined)); simpl; split; reflexivity.
Qed.

(** X22: with a map neither table of which has an own property named
    [hasOwnProperty], [translateSentence] returns a string for every
    sentence, either direction and every instance.  A sentence that is not
    empty and in which no entry of the map matches is returned as it is. *)
Theorem translateSentence_total_with_builtin_guard (sentence : jsstring)
  (reverse : bool) (this : DoggoTranslator) :
  builtInGuard (loader_translationsMap this) = true ->
  exists result,
    fst (translateSentence sentence reverse this) = Returned result
    /\ (sentence <> [] ->
        someEntryMatches (loader_translationsMap this) reverse sentence = false ->
        result = sentence).
Proof.
  intro Hguard. destruct sentence as [|c sentence].
  - exists (js "Bork"). split; [reflexivity | easy].
  - rewrite translateSentence_run by (exact Hguard || discriminate).
    eexists. split; [reflexivity|].
    intros _ H. unfold someEntryMatches in H. apply orb_false_iff in H as [Hw Hs].
    unfold translation.
    change (wholeWordPass reverse)
      with (fun s e => replaceAll (wholeWordRegex (searchTerm reverse e))
                         (wholeWordCallback (replacementTerm reverse e)) s).
    rewrite (fold_pass_no_match wholeWordRegex wholeWordCallback) by exact Hw.
    destruct (suffixes (loader_translationsMap this)) as [t|]; [|reflexivity].
    change (suffixPass reverse)
      with (fun s e => replaceAll (suffixRegex (searchTerm reverse e))
                         (suffixCallback (replacementTerm reverse e)) s).
    now apply (fold_pass_no_match suffixRegex suffixCallback).
Qed.

(** ** The state of the instance *)

Lemma notToken_spec config :
  notToken (languageToken config) = true <-> ~ suppliesToken config.
Proof.
  unfold suppliesToken, notToken. destruct (languageToken config) as [s|].
  - rewrite strictEq_true. split.
    + intros -> (s' & Hs & Hne). inversion Hs; subst. now apply Hne.
    + intro H. destruct s as [|c s]; [reflexivity|].
      exfalso. apply H. exists (c :: s). split; [reflexivity | discriminate].
  - split; [|reflexivity]. intros _ (s & Hs & _). discriminate.
Qed.

Lemma notObject_spec config :
  notObject (userTranslationsMap config) = true <-> ~ suppliesMap config.
Proof.
  unfold suppliesMap, notObject. destruct (userTranslationsMap config) as [m|].
  - split; [discriminate|]. intro H. exfalso. apply H. now exists m.
  - split; [|reflexivity]. intros _ (m & Hm). discriminate.
Qed.

Lemma setLanguage_run (requested : token) (this : DoggoTranslator) :
  setLanguage requested this =
  (Returned tt,
   if languageAvailable requested then afterKnownLanguage requested this
   else afterUnknownLanguage requested this).
Proof.
  unfold setLanguage. destruct (languageAvailable requested); simpl.
  - reflexivity.
  - unfold bind, logError, record, assignLanguageToken, loadLibraryTranslations,
      afterUnknownLanguage, defaultLanguage. simpl.
    now rewrite <- app_assoc.
Qed.

(** C3: for every instance, whatever map it holds, and either direction,
    [translateSentence('')] returns the default response ["Bork"] and
    leaves the instance as it was: in particular no call is made to the
    loader, so the map is not read. *)
Theorem translateSentence_empty (reverse : bool) (this : DoggoTranslator) :
  translateSentence [] reverse this = (Returned (js "Bork"), this).
Proof. reflexivity. Qed.

(** C4: for a token the catalog does not have, [setLanguage] reports an
    error, stores the default language as the active token and then asks
    the loader for the map of the token that was requested; for a token
    the catalog has, it stores that token and asks the loader for its
    map. *)
Theorem setLanguage_catalog (requested : token) (this : DoggoTranslator) :
  (languageAvailable requested = false ->
   setLanguage requested this = (Returned tt, afterUnknownLanguage requested this))
  /\ (languageAvailable requested = true ->
      setLanguage requested this = (Returned tt, afterKnownLanguage requested this)).
Proof.
  rewrite setLanguage_run. split; intros ->; reflexivity.
Qed.

(** C5, as the code has it: with a custom map in the config, construction
    calls [setLanguage] with the user-defined token, which does ask the
    loader for that token's library map (and stores the token if the
    catalog has it, the default language after an error report if not),
    and then installs the custom map with [setTranslationsMap]: the custom
    map is the one the loader holds when construction ends. *)
Theorem constructor_custom_map (config : DoggoTranslatorConfig)
  (map : TranslationMapInterface) :
  userTranslationsMap config = Some map ->
  exists this,
    constructor (Some config) = (Returned tt, this)
    /\ loader_translationsMap this = map
    /\ this_languageToken this =
         (if languageAvailable (Some userDefined) then Some userDefined
          else Some defaultLanguage)
    /\ exists reports,
         calls this = reports ++ [LoadLibraryTranslations (Some userDefined);
                                  SetTranslationsMap map]
         /\ forall c, In c reports -> exists message, c = LogError message.
Proof.
  intro Hmap. unfold constructor, configValidation, setUpTranslator.
  rewrite Hmap. simpl. rewrite andb_false_r.
  unfold bind at 1. simpl.
  unfold bind. rewrite setLanguage_run.
  destruct (languageAvailable (Some userDefined)) eqn:E; simpl.
  - eexists. repeat split.
    exists []. split; [reflexivity|]. intros c [].
  - eexists. repeat split.
    eexists [_]. split; [reflexivity|]. intros c [<-|[]]. eauto.
Qed.

(** C6: construction ends with the configuration error exactly when the
    config value supplies neither a language token nor a custom map (no
    config value at all included); with at least one of the two it does
    not throw. *)
Theorem constructor_config_error (config : option DoggoTranslatorConfig) :
  (suppliesNeither config ->
   constructor config = (Thrown invalidConfigMessage, newInstance))
  /\ (~ suppliesNeither config ->
      exists this, constructor config = (Returned tt, this)).
Proof.
  unfold constructor, configValidation. split.
  - destruct config as [config|]; simpl; [|reflexivity].
    intros [Ht Hm]. apply notToken_spec in Ht. apply notObject_spec in Hm.
    now rewrite Ht, Hm.
  - destruct config as [config|]; simpl; [|intro H; now destruct H].
    intro H.
    assert (E : notToken (languageToken config) && notObject (userTranslationsMap config) = false).
    { apply not_true_is_false. intro E. apply andb_true_iff in E as [Ht Hm].
      apply H. split; [now apply notToken_spec | now apply notObject_spec]. }
    rewrite E. unfold bind at 1. simpl.
    destruct (userTranslationsMap config) as [map|] eqn:Hm.
    + unfold bind. rewrite setLanguage_run. simpl.
      unfold setTranslationsMap. eauto.
    + rewrite setLanguage_run. eauto.
Qed.

(** ** Escaping, further *)

Lemma compile_escapeRegex term :
  compile (escapeRegex term) = Some (map Char term).
Proof.
  unfold compile. rewrite <- (app_nil_r (escapeRegex term)).
  rewrite compileFrom_escapeRegex. simpl. now rewrite app_nil_r.
Qed.

Lemma map_Char_injective a : forall b, map Char a = map Char b -> a = b.
Proof.
  induction a as [|x a IH]; intros [|y b] H; try discriminate; [reflexivity|].
  simpl in H. inversion H. f_equal. now apply IH.
Qed.

Lemma escapeRegex_length s :
  (List.length s <= List.length (escapeRegex s) <= 2 * List.length s)%nat.
Proof.
  induction s as [|c s IH]; simpl; [lia|].
  destruct (inEscapeClass c); simpl; lia.
Qed.

(** X1: two different terms never give the same escaped pattern text. *)
Theorem escapeRegex_distinct (a b : jsstring) :
  a <> b -> escapeRegex a <> escapeRegex b.
Proof.
  intros Hne Heq. apply Hne. apply map_Char_injective.
  pose proof (compile_escapeRegex a) as Ha.
  pose proof (compile_escapeRegex b) as Hb.
  rewrite Heq in Ha. congruence.
Qed.

(** X2: [escapeRegex] returns a term as it is exactly when none of its
    characters is in the escaped class, and its result is never shorter
    than the term nor longer than twice the term. *)
Theorem escapeRegex_fixed_points (s : jsstring) :
  (escapeRegex s = s <-> forallb (fun c => negb (inEscapeClass c)) s = true)
  /\ (List.length s <= List.length (escapeRegex s) <= 2 * List.length s)%nat.
Proof.
  split; [|apply escapeRegex_length].
  induction s as [|c s IH]; simpl; [easy|].
  destruct (inEscapeClass c) eqn:E; simpl.
  - split; [|discriminate]. intro H. inversion H as [[Hc Hs]].
    pose proof (escapeRegex_length s) as Hlen.
    apply (f_equal (@List.length codeUnit)) in Hs. simpl in Hs. lia.
  - rewrite <- IH. split; intro H; [now injection H | now f_equal].
Qed.

(** ** The search term, case ignored *)

Lemma matchAtoms_suffix_letters k : forall k' before s,
  sameLetters k k' ->
  matchAtoms (suffixRegex k) before s = matchAtoms (suffixRegex k') before s.
Proof.
  unfold sameLetters, suffixRegex.
  induction k as [|t k IH]; intros [|t' k'] before s H; try discriminate;
    [reflexivity|].
  simpl in H. inversion H as [[Ht Hk]]. simpl. destruct s as [|c s]; [reflexivity|].
  rewrite Ht. now rewrite (IH k' (Some c) s Hk).
Qed.

Lemma replaceFrom_same_matches re re' callback :
  (forall before s, matchAtoms re before s = matchAtoms re' before s) ->
  forall n s before,
    (List.length s <= n)%nat ->
    replaceFrom re callback before s = replaceFrom re' callback before s.
Proof.
  intros Hsame. induction n as [|n IH]; intros s before Hn;
    rewrite (replaceFrom_eq re), (replaceFrom_eq re'), <- Hsame;
    destruct (matchAtoms re before s) as [[[|c m] rest]|] eqn:E.
  all: try (destruct s as [|d s]; [reflexivity|]; simpl in Hn; try lia;
            do 2 f_equal; apply IH; lia).
  - apply matchAtoms_app in E. subst s. simpl in Hn. lia.
  - apply matchAtoms_app in E. subst s. rewrite length_app in Hn. simpl in Hn.
    f_equal. apply IH. lia.
Qed.

(** X3: the search term is matched with its case ignored: a term and a
    case variant of it give the same result, as a whole word and as a
    suffix. *)
Theorem search_term_case_ignored (input k k' replace : jsstring) :
  sameLetters k k' ->
  translateWholeWord input k replace = translateWholeWord input k' replace
  /\ transformSuffixes input k replace = transformSuffixes input k' replace.
Proof.
  intro H. rewrite !translateWholeWord_eq, !transformSuffixes_eq. unfold replaceAll.
  split; f_equal.
  - apply (replaceFrom_same_matches _ _ _) with (n := List.length input); [|lia].
    intros before s.
    change (wholeWordRegex k) with (WordBoundary :: suffixRegex k).
    change (wholeWordRegex k') with (WordBoundary :: suffixRegex k').
    cbn [matchAtoms].
    now rewrite (matchAtoms_suffix_letters k k' before s H).
  - apply (replaceFrom_same_matches _ _ _) with (n := List.length input); [|lia].
    intros before s. now apply matchAtoms_suffix_letters.
Qed.

(** ** Tables *)

Lemma replaceFrom_nil re callback before :
  matchAtoms re before [] = None -> replaceFrom re callback before [] = [].
Proof. intro H. now rewrite replaceFrom_eq, H. Qed.

Lemma fold_pass_nil (pass : bool -> jsstring -> jsstring * jsstring -> jsstring)
  reverse t :
  (forall e, pass reverse [] e = []) -> fold_left (pass reverse) t [] = [].
Proof.
  intro H. induction t as [|e t IH]; simpl; [reflexivity|]. now rewrite H.
Qed.

(** X4: an empty sentence stays empty through the loops over the tables,
    whatever their entries, an empty search term included, unless the
    table has an own property named [hasOwnProperty]: then the loop
    throws a [TypeError]. *)
Theorem empty_sentence_through_tables (words : option table) (t : table)
  (reverse : bool) :
  replaceWholeWords words reverse []
  = (if shadowsHasOwnProperty (entries words) then Thrown typeError else Returned [])
  /\ replaceSuffixes t reverse []
     = (if shadowsHasOwnProperty t then Thrown typeError else Returned []).
Proof.
  split.
  - destruct (shadowsHasOwnProperty (entries words)) eqn:E.
    + now apply replaceWholeWords_shadowed.
    + rewrite replaceWholeWords_eq by exact E. f_equal.
      apply fold_pass_nil. intro e. unfold wholeWordPass, replaceAll.
      now rewrite replaceFrom_nil.
  - destruct (shadowsHasOwnProperty t) eqn:E.
    + now apply replaceSuffixes_shadowed.
    + rewrite replaceSuffixes_eq by exact E. f_equal.
      apply fold_pass_nil. intro e. unfold suffixPass, replaceAll.
      rewrite replaceFrom_nil; [reflexivity|]. now destruct (searchTerm reverse e).
Qed.

Lemma forEachPair_compose
  (translate : jsstring -> jsstring -> jsstring -> option jsstring)
  (pass : bool -> jsstring -> jsstring * jsstring -> jsstring) t1 t2 reverse s :
  (forall s e, (if negb reverse then translate s (fst e) (snd e)
                else translate s (snd e) (fst e)) = Some (pass reverse s e)) ->
  forEachPair translate (t1 ++ t2) (t1 ++ t2) reverse s
  = match forEachPair translate t1 t1 reverse s with
    | Returned s' => forEachPair translate t2 t2 reverse s'
    | Thrown message => Thrown message
    | Unsupported => Unsupported
    end.
Proof.
  intro Hpass.
  destruct (shadowsHasOwnProperty (t1 ++ t2)) eqn:E.
  - rewrite forEachPair_shadowed
      by (exact E || now apply shadowsHasOwnProperty_nonempty).
    rewrite shadowsHasOwnProperty_app in E.
    destruct (shadowsHasOwnProperty t1) eqn:E1.
    + now rewrite forEachPair_shadowed
        by (exact E1 || now apply shadowsHasOwnProperty_nonempty).
    + rewrite (forEachPair_passes translate pass t1 reverse Hpass E1)
        by apply incl_refl.
      simpl in E.
      now rewrite forEachPair_shadowed
        by (exact E || now apply shadowsHasOwnProperty_nonempty).
  - rewrite (forEachPair_passes translate pass (t1 ++ t2) reverse Hpass E)
      by apply incl_refl.
    rewrite shadowsHasOwnProperty_app in E. apply orb_false_iff in E as [E1 E2].
    rewrite (forEachPair_passes translate pass t1 reverse Hpass E1)
      by apply incl_refl.
    rewrite (forEachPair_passes translate pass t2 reverse Hpass E2)
      by apply incl_refl.
    now rewrite fold_left_app.
Qed.

(** X7: the entries of a table work one after the other: a table made of
    two tables in a row does what the first does, followed by the
    second. *)
Theorem tables_compose (t1 t2 : table) (reverse : bool) (s : jsstring) :
  replaceWholeWords (Some (t1 ++ t2)) reverse s
  = match replaceWholeWords (Some t1) reverse s with
    | Returned s' => replaceWholeWords (Some t2) reverse s'
    | Thrown message => Thrown message
    | Unsupported => Unsupported
    end
  /\ replaceSuffixes (t1 ++ t2) reverse s
     = match replaceSuffixes t1 reverse s with
       | Returned s' => replaceSuffixes t2 reverse s'
       | Thrown message => Thrown message
       | Unsupported => Unsupported
       end.
Proof.
  split.
  - apply (forEachPair_compose translateWholeWord wholeWordPass).
    intros s' e. destruct reverse; simpl; now rewrite translateWholeWord_eq.
  - apply (forEachPair_compose transformSuffixes suffixPass).
    intros s' e. destruct reverse; simpl; now rewrite transformSuffixes_eq.
Qed.

(** ** What [translateSentence] reads and returns *)

Lemma translateSentence_map_only s reverse this this' :
  loader_translationsMap this' = loader_translationsMap this ->
  fst (translateSentence s reverse this') = fst (translateSentence s reverse this).
Proof.
  intro H. unfold translateSentence.
  destruct (strictEq s []); [reflexivity|].
  unfold bind, getTranslationsMap, lift. simpl. rewrite H.
  destruct (replaceWholeWords _ reverse s); try reflexivity.
  now destruct (suffixes (loader_translationsMap this)).
Qed.

(** X5: [translateSentence] only reads: it leaves the stored language
    token and the loader's map as they are, asks the loader for its map
    once unless the sentence is empty, and returns a result that depends
    on the map, the sentence and the direction alone. *)
Theorem translateSentence_reads_only (s : jsstring) (reverse : bool)
  (this : DoggoTranslator) :
  this_languageToken (snd (translateSentence s reverse this)) = this_languageToken this
  /\ loader_translationsMap (snd (translateSentence s reverse this))
     = loader_translationsMap this
  /\ calls (snd (translateSentence s reverse this))
     = calls this ++ (if strictEq s [] then [] else [GetTranslationsMap])
  /\ forall this',
       loader_translationsMap this' = loader_translationsMap this ->
       fst (translateSentence s reverse this') = fst (translateSentence s reverse this).
Proof.
  repeat split.
  - destruct s; [reflexivity|]. now rewrite translateSentence_state.
  - destruct s; [reflexivity|]. now rewrite translateSentence_state.
  - destruct s; [simpl; now rewrite app_nil_r|]. now rewrite translateSentence_state.
  - intros this' H. now apply translateSentence_map_only.
Qed.

Lemma fold_pass_swap (pass : bool -> jsstring -> jsstring * jsstring -> jsstring) t :
  (forall s key value, pass false s (value, key) = pass true s (key, value)) ->
  forall s, fold_left (pass false) (swapEntries t) s = fold_left (pass true) t s.
Proof.
  intro Hpass. induction t as [|[key value] t IH]; intro s; simpl; [reflexivity|].
  now rewrite Hpass, IH.
Qed.

Lemma translation_swap map s :
  translation (swapMap map) false s = translation map true s.
Proof.
  unfold translation, swapMap. simpl.
  assert (Hwords : fold_left (wholeWordPass false)
                     (entries (option_map swapEntries (words map))) s
                   = fold_left (wholeWordPass true) (entries (words map)) s).
  { destruct (words map) as [w|]; [|reflexivity]. now apply fold_pass_swap. }
  rewrite Hwords. destruct (suffixes map) as [sf|]; [|reflexivity].
  now apply fold_pass_swap.
Qed.

(** X6: with a map in which [hasOwnProperty] is neither a property name
    nor a value, translating in reverse is translating forward with the
    map whose entries are exchanged. *)
Theorem reverse_is_forward_on_swapped_map (s : jsstring)
  (this this' : DoggoTranslator) :
  builtInGuard (loader_translationsMap this) = true ->
  builtInGuard (swapMap (loader_translationsMap this)) = true ->
  loader_translationsMap this' = swapMap (loader_translationsMap this) ->
  fst (translateSentence s false this') = fst (translateSentence s true this).
Proof.
  intros Hguard Hguard' H. destruct s as [|c s]; [reflexivity|].
  rewrite <- H in Hguard'.
  rewrite (translateSentence_run (c :: s) false this')
    by (exact Hguard' || discriminate).
  rewrite (translateSentence_run (c :: s) true this)
    by (exact Hguard || discriminate).
  simpl. rewrite H. f_equal. apply translation_swap.
Qed.

Lemma replaceFrom_not_empty re callback before s :
  s <> [] -> (forall m, m <> [] -> callback m <> []) ->
  replaceFrom re callback before s <> [].
Proof.
  intros Hs Hcb. rewrite replaceFrom_eq.
  destruct (matchAtoms re before s) as [[[|c m] rest]|].
  - destruct s; [now destruct Hs|]. now destruct (callback []).
  - intro H. apply app_eq_nil in H as [H _]. now apply (Hcb (c :: m)).
  - destruct s; [now destruct Hs | discriminate].
Qed.

Lemma fold_pass_not_empty (regexOf : jsstring -> Regex)
  (callbackOf : jsstring -> jsstring -> jsstring) reverse t :
  (forall replace m, replace <> [] -> m <> [] -> callbackOf replace m <> []) ->
  forallb (fun e => negb (strictEq (replacementTerm reverse e) [])) t = true ->
  forall s, s <> [] ->
  fold_left (fun s e => replaceAll (regexOf (searchTerm reverse e))
                          (callbackOf (replacementTerm reverse e)) s) t s
  <> [].
Proof.
  intros Hcb. induction t as [|e t IH]; intros Ht s Hs; simpl; [exact Hs|].
  simpl in Ht. apply andb_true_iff in Ht as [He Ht].
  apply IH; [exact Ht|]. apply replaceFrom_not_empty; [exact Hs|].
  intros m Hm. apply Hcb; [|exact Hm].
  intro Hempty. unfold replacementTerm in *. rewrite Hempty in He. discriminate.
Qed.

(** X8: when upper-casing keeps a string that is not empty from becoming
    empty, neither table of the map has an own property named
    [hasOwnProperty] and no entry of the map is replaced by the empty
    string in the direction used, the translation of a sentence that is
    not empty is not empty. *)
Theorem translateSentence_not_empty (s : jsstring) (reverse : bool)
  (this : DoggoTranslator) :
  (forall x, x <> [] -> toUpperCase x <> []) ->
  s <> [] ->
  builtInGuard (loader_translationsMap this) = true ->
  replacementsNotEmpty (loader_translationsMap this) reverse = true ->
  exists result,
    fst (translateSentence s reverse this) = Returned result /\ result <> [].
Proof.
  intros HU Hs Hguard Hrep. rewrite translateSentence_run by assumption.
  eexists. split; [reflexivity|].
  unfold replacementsNotEmpty in Hrep. apply andb_true_iff in Hrep as [Hw Hsf].
  unfold translation.
  assert (Hfirst : forall r : jsstring, r <> [] -> firstn 1 r <> [])
    by (intros [|x r] Hr; [now destruct Hr | discriminate]).
  assert (Hwords :
            fold_left (wholeWordPass reverse)
              (entries (words (loader_translationsMap this))) s <> []).
  { apply (fold_pass_not_empty wholeWordRegex wholeWordCallback); try assumption.
    intros replace m Hr _. unfold wholeWordCallback, capitalizeFirstCharacter.
    destruct (strictEq m (toUpperCase m)); [now apply HU|].
    destruct (strictEq m _); [|exact Hr].
    intro H. apply app_eq_nil in H as [H _]. revert H. apply HU. now apply Hfirst. }
  destruct (suffixes (loader_translationsMap this)) as [t|]; [|exact Hwords].
  apply (fold_pass_not_empty suffixRegex suffixCallback); try assumption.
  intros replace m Hr _. unfold suffixCallback.
  destruct (strictEq m (toUpperCase m)); [now apply HU | exact Hr].
Qed.

(** ** The language and the map after the calls *)

(** X9: when the default language is in the catalog, the token stored by
    [setLanguage] is in the catalog, whatever token was asked for. *)
Theorem setLanguage_keeps_catalog_token (requested : token)
  (this : DoggoTranslator) :
  tokenAvailable (Some english) = true ->
  languageAvailable (this_languageToken (snd (setLanguage requested this))) = true.
Proof.
  intro Hdefault. rewrite setLanguage_run. simpl.
  destruct (languageAvailable requested) eqn:E; [exact E | exact Hdefault].
Qed.

(** X10: a custom map in the config takes priority: the language token
    given beside it plays no part in construction. *)
Theorem constructor_map_priority (requested requested' : token)
  (map : TranslationMapInterface) :
  constructor (Some {| languageToken := requested; userTranslationsMap := Some map |})
  = constructor (Some {| languageToken := requested';
                         userTranslationsMap := Some map |}).
Proof.
  unfold constructor, configValidation, setUpTranslator. simpl.
  now rewrite !andb_false_r.
Qed.

Lemma constructor_returned config this :
  constructor config = (Returned tt, this) ->
  exists c,
    config = Some c
    /\ this
       = match userTranslationsMap c with
         | Some map =>
             snd (setTranslationsMap map (snd (setLanguage (Some userDefined) newInstance)))
         | None => snd (setLanguage (languageToken c) newInstance)
         end
    /\ (userTranslationsMap c = None -> notToken (languageToken c) = false).
Proof.
  unfold constructor, configValidation. destruct config as [c|]; [|discriminate].
  intro H. exists c. split; [reflexivity|]. revert H. simpl.
  destruct (userTranslationsMap c) as [map|] eqn:Hmap; simpl.
  - rewrite andb_false_r. unfold bind at 1. simpl. unfold bind.
    rewrite setLanguage_run. simpl. intro H. inversion H. now split.
  - rewrite andb_true_r. destruct (notToken (languageToken c)) eqn:Ht;
      [discriminate|].
    unfold bind. simpl. intro H. rewrite H. now split.
Qed.

(** X11: after a construction that returns, the stored language token is
    a string, and it is in the catalog when the default language is. *)
Theorem constructor_sets_language (config : option DoggoTranslatorConfig)
  (this : DoggoTranslator) :
  constructor config = (Returned tt, this) ->
  (exists s, this_languageToken this = Some s)
  /\ (tokenAvailable (Some english) = true ->
      languageAvailable (this_languageToken this) = true).
Proof.
  intro H. apply constructor_returned in H as (c & _ & -> & Htoken).
  destruct (userTranslationsMap c) as [map|].
  - rewrite setLanguage_run. simpl.
    destruct (languageAvailable (Some userDefined)) eqn:E; simpl; eauto.
  - rewrite setLanguage_run. specialize (Htoken eq_refl).
    destruct (languageAvailable (languageToken c)) eqn:E; simpl; [|eauto].
    split; [|now intros _]. destruct (languageToken c) as [s|]; [eauto | discriminate].
Qed.

(** X12: a translator built from a config with a custom map translates
    with that map alone: the library the loader was asked for on the way
    plays no part. *)
Theorem custom_map_translates_alone (config : DoggoTranslatorConfig)
  (map : TranslationMapInterface) (s : jsstring) (reverse : bool)
  (this' : DoggoTranslator) :
  userTranslationsMap config = Some map ->
  loader_translationsMap this' = map ->
  fst (translateSentence s reverse (snd (constructor (Some config))))
  = fst (translateSentence s reverse this').
Proof.
  intros Hmap Hthis. apply translateSentence_map_only.
  unfold constructor, configValidation, setUpTranslator. rewrite Hmap. simpl.
  rewrite andb_false_r. unfold bind at 1. simpl. unfold bind.
  rewrite setLanguage_run. simpl. now rewrite Hthis.
Qed.

(** X13: after [setLanguage], sentences are translated with the library
    map of the token that was asked for, also when that token is not in
    the catalog and the stored language is the default one. *)
Theorem setLanguage_translates_with_requested (requested : token)
  (s : jsstring) (reverse : bool) (this this' : DoggoTranslator) :
  loader_translationsMap this'
  = libraryTranslations requested (loader_translationsMap this) ->
  fst (translateSentence s reverse (snd (setLanguage requested this)))
  = fst (translateSentence s reverse this')
  /\ (languageAvailable requested = false ->
      this_languageToken (snd (setLanguage requested this)) = Some defaultLanguage).
Proof.
  intro H. rewrite setLanguage_run. simpl. split.
  - symmetry. apply translateSentence_map_only. rewrite H.
    now destruct (languageAvailable requested).
  - now intros ->.
Qed.

(** X14: the node example builds its translator without a config: it ends
    with the configuration error, before any collaborator is called and
    before a sentence is translated or printed. *)
Theorem exampleScript_throws :
  exampleScript = (Thrown invalidConfigMessage, [])
  /\ calls (snd (constructor None)) = [].
Proof. split; reflexivity. Qed.

End Translator.

(** * Sentences and maps of ASCII characters

    On a string of ASCII code units the platform's [toUpperCase] is
    [asciiToUpper].  For a sentence and a map of ASCII characters the
    translation is therefore the same under every upper-casing function
    that agrees with [asciiToUpper] on those strings. *)

Section Ascii.

Variable toUpperCase : jsstring -> jsstring.
Hypothesis upper_ascii : UpperCasesAscii toUpperCase.

Lemma asciiToUpper_ascii s : isAscii s = true -> isAscii (asciiToUpper s) = true.
Proof.
  unfold isAscii, asciiToUpper. rewrite !forallb_forall. intros H c Hc.
  apply in_map_iff in Hc as (d & <- & Hd). specialize (H d Hd).
  apply N.ltb_lt in H. apply N.ltb_lt. destruct (inRange 97 122 d); lia.
Qed.

Lemma canonicalize_ascii c :
  (c <? 128) = true -> canonicalize toUpperCase c = canonicalize asciiToUpper c.
Proof.
  intro H. unfold canonicalize. rewrite upper_ascii; [reflexivity|].
  simpl. now rewrite H.
Qed.

Lemma matchAtoms_ascii re : forall before s,
  forallb atomAscii re = true -> isAscii s = true ->
  matchAtoms toUpperCase re before s = matchAtoms asciiToUpper re before s.
Proof.
  induction re as [|a re IH]; intros before s Hre Hs; simpl; [reflexivity|].
  simpl in Hre. apply andb_true_iff in Hre as [Ha Hre].
  destruct a as [|t].
  - now rewrite IH.
  - destruct s as [|c s]; [reflexivity|].
    simpl in Hs. apply andb_true_iff in Hs as [Hc Hs]. simpl in Ha.
    now rewrite !canonicalize_ascii, IH.
Qed.

Lemma app_ascii a b : isAscii (a ++ b) = isAscii a && isAscii b.
Proof. apply forallb_app. Qed.

Lemma firstn_skipn_ascii n s :
  isAscii s = true -> isAscii (firstn n s) = true /\ isAscii (skipn n s) = true.
Proof.
  intro H. rewrite <- (firstn_skipn n s), app_ascii in H.
  now apply andb_true_iff in H.
Qed.

Lemma capitalizeFirstCharacter_ascii s :
  isAscii s = true ->
  capitalizeFirstCharacter toUpperCase s = capitalizeFirstCharacter asciiToUpper s
  /\ isAscii (capitalizeFirstCharacter asciiToUpper s) = true.
Proof.
  intro H. unfold capitalizeFirstCharacter. split.
  - now rewrite upper_ascii by now apply firstn_skipn_ascii.
  - rewrite app_ascii, asciiToUpper_ascii by now apply firstn_skipn_ascii.
    now apply firstn_skipn_ascii.
Qed.

Lemma wholeWordCallback_ascii replace m :
  isAscii replace = true -> isAscii m = true ->
  wholeWordCallback toUpperCase replace m = wholeWordCallback asciiToUpper replace m
  /\ isAscii (wholeWordCallback asciiToUpper replace m) = true.
Proof.
  intros Hr Hm. unfold wholeWordCallback.
  destruct (capitalizeFirstCharacter_ascii m Hm) as [-> _].
  destruct (capitalizeFirstCharacter_ascii replace Hr) as [-> Hc].
  rewrite !upper_ascii by assumption.
  destruct (strictEq m (asciiToUpper m)).
  - split; [reflexivity | now apply asciiToUpper_ascii].
  - now destruct (strictEq m (capitalizeFirstCharacter asciiToUpper m)).
Qed.

Lemma suffixCallback_ascii replace m :
  isAscii replace = true -> isAscii m = true ->
  suffixCallback toUpperCase replace m = suffixCallback asciiToUpper replace m
  /\ isAscii (suffixCallback asciiToUpper replace m) = true.
Proof.
  intros Hr Hm. unfold suffixCallback. rewrite !upper_ascii by assumption.
  destruct (strictEq m (asciiToUpper m)).
  - split; [reflexivity | now apply asciiToUpper_ascii].
  - now split.
Qed.

Lemma replaceFrom_ascii re cb1 cb2 :
  forallb atomAscii re = true ->
  (forall m, isAscii m = true -> cb1 m = cb2 m /\ isAscii (cb2 m) = true) ->
  forall n s before,
    (List.length s <= n)%nat -> isAscii s = true ->
    replaceFrom toUpperCase re cb1 before s = replaceFrom asciiToUpper re cb2 before s
    /\ isAscii (replaceFrom asciiToUpper re cb2 before s) = true.
Proof.
  intros Hre Hcb.
  assert (Hnil : forall before,
             replaceFrom toUpperCase re cb1 before [] = replaceFrom asciiToUpper re cb2 before []
             /\ isAscii (replaceFrom asciiToUpper re cb2 before []) = true).
  { intros before.
    rewrite (replaceFrom_eq toUpperCase), (replaceFrom_eq asciiToUpper).
    rewrite matchAtoms_ascii by easy.
    destruct (Hcb [] eq_refl) as [-> Hout].
    destruct (matchAtoms asciiToUpper re before []) as [[[|c m] rest]|] eqn:E.
    - now rewrite app_nil_r.
    - apply matchAtoms_app in E. discriminate.
    - now split. }
  induction n as [|n IH]; intros s before Hn Hs.
  - destruct s; [apply Hnil | simpl in Hn; lia].
  - destruct s as [|d s]; [apply Hnil|].
    rewrite (replaceFrom_eq toUpperCase), (replaceFrom_eq asciiToUpper).
    rewrite matchAtoms_ascii by assumption.
    assert (Hstep : replaceFrom toUpperCase re cb1 (Some d) s
                    = replaceFrom asciiToUpper re cb2 (Some d) s
                    /\ isAscii (d :: replaceFrom asciiToUpper re cb2 (Some d) s) = true).
    { simpl in Hn, Hs. apply andb_true_iff in Hs as [Hd Hs].
      destruct (IH s (Some d)) as [-> Hr]; [lia | assumption |].
      split; [reflexivity|]. simpl. now rewrite Hd, Hr. }
    destruct Hstep as [Hstep Hout].
    destruct (Hcb [] eq_refl) as [Hcb0 Hout0].
    destruct (matchAtoms asciiToUpper re before (d :: s)) as [[[|c m] rest]|] eqn:E.
    + rewrite Hcb0, Hstep. split; [reflexivity|]. now rewrite app_ascii, Hout0, Hout.
    + apply matchAtoms_app in E. rewrite E in Hs, Hn.
      rewrite app_ascii in Hs. apply andb_true_iff in Hs as [Hm Hrest].
      destruct (Hcb (c :: m) Hm) as [-> Hcm].
      rewrite length_app in Hn. simpl in Hn.
      destruct (IH rest (lastBefore before (c :: m))) as [-> Hr]; [lia | assumption |].
      split; [reflexivity|]. now rewrite app_ascii, Hcm, Hr.
    + rewrite Hstep. now split.
Qed.

Lemma replaceAll_ascii re cb1 cb2 s :
  forallb atomAscii re = true ->
  (forall m, isAscii m = true -> cb1 m = cb2 m /\ isAscii (cb2 m) = true) ->
  isAscii s = true ->
  replaceAll toUpperCase re cb1 s = replaceAll asciiToUpper re cb2 s
  /\ isAscii (replaceAll asciiToUpper re cb2 s) = true.
Proof.
  intros Hre Hcb Hs. unfold replaceAll.
  now apply (replaceFrom_ascii re cb1 cb2 Hre Hcb (List.length s)).
Qed.

Lemma suffixRegex_ascii term :
  isAscii term = true -> forallb atomAscii (suffixRegex term) = true.
Proof.
  intro H. unfold suffixRegex. rewrite forallb_app, andb_true_r.
  induction term as [|c term IH]; [reflexivity|].
  simpl in *. apply andb_true_iff in H as [Hc H]. now rewrite Hc, IH.
Qed.

Lemma wholeWordRegex_ascii term :
  isAscii term = true -> forallb atomAscii (wholeWordRegex term) = true.
Proof. intro H. now apply suffixRegex_ascii. Qed.

Lemma entry_terms_ascii reverse e :
  isAscii (fst e) && isAscii (snd e) = true ->
  isAscii (searchTerm reverse e) = true /\ isAscii (replacementTerm reverse e) = true.
Proof.
  intro H. apply andb_true_iff in H as [H1 H2].
  now destruct reverse.
Qed.

Lemma wholeWordPasses_ascii reverse t : forall s,
  tableAscii t = true -> isAscii s = true ->
  fold_left (wholeWordPass toUpperCase reverse) t s
  = fold_left (wholeWordPass asciiToUpper reverse) t s
  /\ isAscii (fold_left (wholeWordPass asciiToUpper reverse) t s) = true.
Proof.
  induction t as [|e t IH]; intros s Ht Hs; simpl; [now split|].
  simpl in Ht. apply andb_true_iff in Ht as [He Ht].
  destruct (entry_terms_ascii reverse e He) as [Hk Hv].
  unfold wholeWordPass at 2 4 6.
  destruct (replaceAll_ascii (wholeWordRegex (searchTerm reverse e))
              (wholeWordCallback toUpperCase (replacementTerm reverse e))
              (wholeWordCallback asciiToUpper (replacementTerm reverse e)) s)
    as [-> Hout]; [now apply wholeWordRegex_ascii | | assumption | now apply IH].
  intros m Hm. now apply wholeWordCallback_ascii.
Qed.

Lemma suffixPasses_ascii reverse t : forall s,
  tableAscii t = true -> isAscii s = true ->
  fold_left (suffixPass toUpperCase reverse) t s
  = fold_left (suffixPass asciiToUpper reverse) t s
  /\ isAscii (fold_left (suffixPass asciiToUpper reverse) t s) = true.
Proof.
  induction t as [|e t IH]; intros s Ht Hs; simpl; [now split|].
  simpl in Ht. apply andb_true_iff in Ht as [He Ht].
  destruct (entry_terms_ascii reverse e He) as [Hk Hv].
  unfold suffixPass at 2 4 6.
  destruct (replaceAll_ascii (suffixRegex (searchTerm reverse e))
              (suffixCallback toUpperCase (replacementTerm reverse e))
              (suffixCallback asciiToUpper (replacementTerm reverse e)) s)
    as [-> Hout]; [now apply suffixRegex_ascii | | assumption | now apply IH].
  intros m Hm. now apply suffixCallback_ascii.
Qed.

Lemma translation_ascii map reverse s :
  mapAscii map = true -> isAscii s = true ->
  translation toUpperCase map reverse s = translation asciiToUpper map reverse s
  /\ isAscii (translation asciiToUpper map reverse s) = true.
Proof.
  intros Hmap Hs. unfold mapAscii in Hmap. apply andb_true_iff in Hmap as [Hw Hsf].
  unfold translation.
  destruct (wholeWordPasses_ascii reverse (entries (words map)) s Hw Hs) as [-> Hout].
  destruct (suffixes map) as [t|]; [|now split].
  now apply suffixPasses_ascii.
Qed.

(** What [translateSentence] returns for an ASCII sentence that is not
    empty, when the instance holds an ASCII map without an own property
    named [hasOwnProperty]. *)
Lemma translateSentence_ascii sentence reverse this :
  sentence <> [] -> isAscii sentence = true ->
  mapAscii (loader_translationsMap this) = true ->
  builtInGuard (loader_translationsMap this) = true ->
  fst (translateSentence toUpperCase sentence reverse this)
  = Returned (translation asciiToUpper (loader_translationsMap this) reverse sentence).
Proof.
  intros Hne Hs Hmap Hguard. rewrite translateSentence_run by assumption. simpl.
  f_equal. now apply translation_ascii.
Qed.

End Ascii.

(** * Translating forward and back

    For a table of words the passes work word by word, so a sentence can
    be followed through them one word at a time. *)

Section RoundTrip.

Variable toUpperCase : jsstring -> jsstring.
Hypothesis upper_ascii : UpperCasesAscii toUpperCase.

Lemma tokenized_all s : Tokenized s.
Proof.
  induction s as [|c s IH]; [constructor|].
  destruct (isWordChar c) eqn:Hc; [|now constructor].
  destruct IH as [|d s' Hd Hs'|w Hw|w d s' Hw Hd Hs'].
  - apply (tokens_last_word [c]). simpl. now rewrite Hc.
  - apply (tokens_word [c] d s'); [simpl; now rewrite Hc | assumption..].
  - apply (tokens_last_word (c :: w)). destruct w; [discriminate|].
    simpl in *. now rewrite Hc.
  - apply (tokens_word (c :: w) d s'); [|assumption..]. destruct w; [discriminate|].
    simpl in *. now rewrite Hc.
Qed.

Lemma wordChar_ascii c : isWordChar c = true -> (c <? 128) = true.
Proof. intro H. apply N.ltb_lt. bool_arith. Qed.

Lemma isWord_chars w : isWord w = true -> forallb isWordChar w = true /\ w <> [].
Proof. destruct w; [discriminate|]. intro H. split; [exact H | discriminate]. Qed.

Lemma chars_isWord w : forallb isWordChar w = true -> w <> [] -> isWord w = true.
Proof. destruct w; [easy|]. intros H _. exact H. Qed.

Lemma word_ascii w : forallb isWordChar w = true -> isAscii w = true.
Proof.
  unfold isAscii. rewrite !forallb_forall. intros H c Hc.
  apply wordChar_ascii. now apply H.
Qed.

Lemma canonicalize_below c :
  (c <? 128) = true ->
  canonicalize toUpperCase c = if inRange 97 122 c then c - 32 else c.
Proof.
  intro H. rewrite canonicalize_ascii by assumption.
  unfold canonicalize, asciiToUpper. simpl.
  apply N.ltb_lt in H. destruct (N.leb_spec 128 c); [lia | reflexivity].
Qed.

Lemma canonicalize_above c :
  (c <? 128) = false -> (canonicalize toUpperCase c <? 128) = false.
Proof.
  intro H. unfold canonicalize.
  destruct (toUpperCase _) as [|cu [|]]; try exact H.
  apply N.ltb_ge in H. destruct (N.leb_spec 128 c); [|lia]. simpl.
  destruct (cu <? 128) eqn:E; [now apply N.ltb_ge | exact E].
Qed.

Lemma sameLetter_wordChar t c :
  isWordChar t = true -> canonicalize toUpperCase t = canonicalize toUpperCase c ->
  isWordChar c = true.
Proof.
  intros Ht Heq. pose proof (wordChar_ascii t Ht) as Hlt.
  rewrite (canonicalize_below t Hlt) in Heq.
  destruct (c <? 128) eqn:Hc.
  - rewrite (canonicalize_below c Hc) in Heq.
    destruct (inRange 97 122 t) eqn:E1; destruct (inRange 97 122 c) eqn:E2;
      apply N.ltb_lt in Hlt, Hc; bool_arith.
  - apply canonicalize_above in Hc. rewrite <- Heq in Hc.
    apply N.ltb_ge in Hc. apply N.ltb_lt in Hlt.
    destruct (inRange 97 122 t) eqn:E1; bool_arith.
Qed.

Lemma sameLetters_wordChars term : forall w,
  forallb isWordChar term = true -> sameLetters toUpperCase term w ->
  forallb isWordChar w = true.
Proof.
  unfold sameLetters.
  induction term as [|t term IH]; intros [|c w] Ht H; try discriminate; [reflexivity|].
  simpl in *. apply andb_true_iff in Ht as [Ht Hterm]. inversion H.
  rewrite (sameLetter_wordChar t c), IH; auto.
Qed.

Lemma sameLettersb_true a b :
  sameLettersb toUpperCase a b = true <-> sameLetters toUpperCase a b.
Proof. apply strictEq_true. Qed.

Lemma sameLettersb_false a b :
  sameLettersb toUpperCase a b = false <-> ~ sameLetters toUpperCase a b.
Proof.
  rewrite <- sameLettersb_true. now destruct (sameLettersb toUpperCase a b).
Qed.

Lemma sameLettersb_sym a b :
  sameLettersb toUpperCase a b = sameLettersb toUpperCase b a.
Proof.
  destruct (sameLettersb toUpperCase b a) eqn:E.
  - apply sameLettersb_true. symmetry. now apply sameLettersb_true.
  - apply sameLettersb_false. intro H. apply sameLettersb_false in E.
    apply E. now symmetry.
Qed.

Lemma sameLettersb_letters a b b' :
  sameLetters toUpperCase b b' ->
  sameLettersb toUpperCase a b = sameLettersb toUpperCase a b'.
Proof. unfold sameLettersb, sameLetters. now intros ->. Qed.

Lemma last_wordChar w :
  isWord w = true -> isWordChar (last w 0) = true.
Proof.
  intro H. apply isWord_chars in H as [H Hne].
  rewrite forallb_forall in H. apply H.
  destruct (exists_last Hne) as (w' & c & ->). rewrite last_last.
  apply in_or_app. right. now left.
Qed.

(** A pass keeps a character that is not a word character. *)
Lemma wholeWord_separator term before c s :
  isWord term = true -> isWordChar c = false ->
  matchAtoms toUpperCase (wholeWordRegex term) before (c :: s) = None.
Proof.
  intros Hterm Hc. destruct term as [|t term]; [discriminate|].
  simpl in Hterm. apply andb_true_iff in Hterm as [Ht _]. simpl.
  destruct (isWordBoundary before (Some c)); [|reflexivity].
  destruct (N.eqb_spec (canonicalize toUpperCase t) (canonicalize toUpperCase c))
    as [E|E]; [|reflexivity].
  apply (sameLetter_wordChar t c Ht) in E. congruence.
Qed.

Lemma wholeWord_end term before :
  isWord term = true ->
  matchAtoms toUpperCase (wholeWordRegex term) before [] = None.
Proof.
  intros Hterm. destruct term as [|t term]; [discriminate|]. simpl.
  now destruct (isWordBoundary before None).
Qed.

(** Inside a word a whole-word pattern does not match. *)
Lemma wholeWordFrom_inside term replace rest : forall w before,
  optWordChar before = true -> forallb isWordChar w = true ->
  wholeWordFrom toUpperCase term replace before (w ++ rest)
  = w ++ wholeWordFrom toUpperCase term replace (lastBefore before w) rest.
Proof.
  induction w as [|c w IH]; intros before Hb Hw; [reflexivity|].
  simpl in Hw. apply andb_true_iff in Hw as [Hc Hw].
  rewrite lastBefore_cons. unfold wholeWordFrom.
  rewrite <- !app_comm_cons, replaceFrom_keep.
  - f_equal. now apply IH.
  - simpl. unfold isWordBoundary. simpl. now rewrite Hb, Hc.
Qed.

(** At the start of a word a whole-word pattern matches the word or
    nothing. *)
Lemma wholeWord_at_word term before w rest :
  isWord term = true -> optWordChar before = false -> isWord w = true ->
  optWordChar (hd_error rest) = false ->
  matchAtoms toUpperCase (wholeWordRegex term) before (w ++ rest)
  = if sameLettersb toUpperCase term w then Some (w, rest) else None.
Proof.
  intros Hterm Hb Hw Hrest.
  destruct (sameLettersb toUpperCase term w) eqn:E.
  - apply sameLettersb_true in E. apply matchAtoms_wholeWordRegex.
    split; [reflexivity|]. pose proof (last_wordChar w Hw) as Hlast.
    destruct w as [|c w]; [discriminate|]. simpl in Hw.
    apply andb_true_iff in Hw as [Hc _].
    unfold WholeWordMatch, SuffixMatch, isWordBoundary.
    change (optWordChar (hd_error ((c :: w) ++ rest))) with (isWordChar c).
    change (optWordChar (lastBefore before (c :: w)))
      with (isWordChar (last (c :: w) 0)).
    now rewrite Hb, Hc, Hlast, Hrest.
  - destruct (matchAtoms toUpperCase (wholeWordRegex term) before (w ++ rest))
      as [[m rest']|] eqn:Hm; [exfalso | reflexivity].
    apply matchAtoms_wholeWordRegex in Hm as (Hs & _ & Hsame & Hafter).
    apply sameLettersb_false in E.
    apply isWord_chars in Hterm as [Hterm Hne].
    pose proof (sameLetters_wordChars term m Hterm Hsame) as Hmw.
    assert (Hmne : m <> []).
    { intros ->. destruct term; [now apply Hne | discriminate]. }
    assert (Hml : isWordChar (last m 0) = true)
      by (apply last_wordChar; now apply chars_isWord).
    apply app_eq_app in Hs as (l & [[-> ->] | [-> ->]]).
    + destruct l as [|x l].
      * rewrite app_nil_r in E. contradiction.
      * apply isWord_chars in Hw as [Hw _]. rewrite forallb_app in Hw.
        apply andb_true_iff in Hw as [_ Hl]. simpl in Hl.
        apply andb_true_iff in Hl as [Hx _].
        destruct m as [|y m]; [now apply Hmne|].
        unfold isWordBoundary, lastBefore in Hafter. simpl in Hafter.
        simpl in Hml. now rewrite Hml, Hx in Hafter.
    + destruct l as [|x l].
      * rewrite app_nil_r in Hsame. contradiction.
      * rewrite forallb_app in Hmw. apply andb_true_iff in Hmw as [_ Hl].
        simpl in Hl. apply andb_true_iff in Hl as [Hx _].
        simpl in Hrest. congruence.
Qed.

(** What a pass makes of a word at the start of which it stands. *)
Lemma wholeWordFrom_word term replace before w rest :
  isWord term = true -> optWordChar before = false -> isWord w = true ->
  optWordChar (hd_error rest) = false ->
  wholeWordFrom toUpperCase term replace before (w ++ rest)
  = (if sameLettersb toUpperCase term w
     then wholeWordCallback toUpperCase replace w else w)
    ++ wholeWordFrom toUpperCase term replace (lastBefore before w) rest.
Proof.
  intros Hterm Hb Hw Hrest.
  pose proof (wholeWord_at_word term before w rest Hterm Hb Hw Hrest) as Hm.
  destruct (sameLettersb toUpperCase term w).
  - apply replaceFrom_match; [|exact Hm]. now destruct w.
  - destruct w as [|c w]; [discriminate|].
    simpl in Hw. apply andb_true_iff in Hw as [Hc Hw].
    unfold wholeWordFrom. rewrite <- !app_comm_cons in *.
    rewrite replaceFrom_keep by exact Hm. f_equal.
    rewrite lastBefore_cons. now apply wholeWordFrom_inside.
Qed.

Lemma wholeWordFrom_separator term replace before c s :
  isWord term = true -> isWordChar c = false ->
  wholeWordFrom toUpperCase term replace before (c :: s)
  = c :: wholeWordFrom toUpperCase term replace (Some c) s.
Proof.
  intros Hterm Hc. apply replaceFrom_keep. now apply wholeWord_separator.
Qed.

Lemma wholeWordFrom_end term replace before :
  isWord term = true -> wholeWordFrom toUpperCase term replace before [] = [].
Proof.
  intro Hterm. unfold wholeWordFrom.
  now rewrite replaceFrom_eq, wholeWord_end.
Qed.

Lemma asciiToUpper_wordChars w :
  forallb isWordChar w = true -> forallb isWordChar (asciiToUpper w) = true.
Proof.
  unfold asciiToUpper. rewrite !forallb_forall. intros H c Hc.
  apply in_map_iff in Hc as (d & <- & Hd). specialize (H d Hd).
  destruct (inRange 97 122 d) eqn:E; [|exact H]. clear H.
  apply orb_true_iff. left. apply orb_true_iff. left. apply orb_true_iff. right.
  unfold inRange in *. apply andb_true_iff in E as [E1 E2].
  apply N.leb_le in E1, E2. apply andb_true_iff. split; apply N.leb_le; lia.
Qed.

Lemma asciiToUpper_nonempty w : w <> [] -> asciiToUpper w <> [].
Proof. now destruct w. Qed.

Lemma asciiToUpper_sameLetters w :
  isAscii w = true -> sameLetters toUpperCase (asciiToUpper w) w.
Proof.
  unfold sameLetters, asciiToUpper.
  induction w as [|c w IH]; intro H; [reflexivity|].
  simpl in H. apply andb_true_iff in H as [Hc Hw]. simpl. rewrite IH by exact Hw.
  f_equal. rewrite (canonicalize_below c Hc).
  destruct (inRange 97 122 c) eqn:E;
    [|rewrite canonicalize_below by assumption; now rewrite E].
  assert (Hlt : (c - 32 <? 128) = true) by (apply N.ltb_lt in Hc; apply N.ltb_lt; lia).
  rewrite (canonicalize_below _ Hlt).
  destruct (inRange 97 122 (c - 32)) eqn:E'; [|reflexivity].
  unfold inRange in *. apply andb_true_iff in E as [E1 E2], E' as [E3 E4].
  apply N.leb_le in E1, E2, E3, E4. lia.
Qed.

(** The callback's result is the replacement in some casing. *)
Lemma wholeWordCallback_word replace m :
  isWord replace = true ->
  isWord (wholeWordCallback toUpperCase replace m) = true
  /\ sameLetters toUpperCase (wholeWordCallback toUpperCase replace m) replace.
Proof.
  intro Hr. pose proof Hr as Hr'. apply isWord_chars in Hr' as [Hchars Hne].
  pose proof (word_ascii replace Hchars) as Hascii.
  unfold wholeWordCallback, capitalizeFirstCharacter.
  destruct (firstn_skipn_ascii 1 replace Hascii) as [Hfirst _].
  rewrite (upper_ascii replace Hascii), (upper_ascii (firstn 1 replace) Hfirst).
  destruct (strictEq m (toUpperCase m)).
  - split.
    + apply chars_isWord; [now apply asciiToUpper_wordChars|].
      now apply asciiToUpper_nonempty.
    + now apply asciiToUpper_sameLetters.
  - destruct (strictEq m _); [|split; [assumption | reflexivity]].
    destruct replace as [|c replace]; [discriminate|].
    change (firstn 1 (c :: replace)) with [c] in *.
    change (skipn 1 (c :: replace)) with replace.
    change ([c] ++ replace) with (c :: replace) in *.
    change (asciiToUpper [c] ++ replace)
      with ((if inRange 97 122 c then c - 32 else c) :: replace).
    simpl in Hr. apply andb_true_iff in Hr as [Hc Hrest]. split.
    + simpl. rewrite Hrest, andb_true_r.
      pose proof (asciiToUpper_wordChars [c]) as H1. simpl in H1.
      rewrite !andb_true_r in H1. now apply H1.
    + pose proof (asciiToUpper_sameLetters [c] Hfirst) as H1.
      unfold sameLetters in *. simpl in *. inversion H1 as [H2].
      now rewrite H2.
Qed.

Lemma wordPass_word reverse w e :
  isWord (fst e) && isWord (snd e) = true -> isWord w = true ->
  isWord (wordPass toUpperCase reverse w e) = true.
Proof.
  intros He Hw. apply andb_true_iff in He as [Hk Hv]. unfold wordPass.
  destruct (sameLettersb toUpperCase (searchTerm reverse e) w); [|exact Hw].
  apply wholeWordCallback_word. now destruct reverse.
Qed.

Lemma entry_terms_word reverse e :
  isWord (fst e) && isWord (snd e) = true ->
  isWord (searchTerm reverse e) = true /\ isWord (replacementTerm reverse e) = true.
Proof. intro H. apply andb_true_iff in H as [Hk Hv]. now destruct reverse. Qed.

Lemma wordPasses_word reverse t : forall w,
  wordTable t = true -> isWord w = true ->
  isWord (wordPasses toUpperCase reverse t w) = true.
Proof.
  induction t as [|e t IH]; intros w Ht Hw; [exact Hw|].
  simpl in Ht. apply andb_true_iff in Ht as [He Ht].
  apply IH; [exact Ht | now apply wordPass_word].
Qed.

(** The passes of a table of words, over the four kinds of sentence. *)
Lemma passesFrom_end reverse t before :
  wordTable t = true -> passesFrom toUpperCase reverse t before [] = [].
Proof.
  induction t as [|e t IH]; intro Ht; [reflexivity|].
  simpl in Ht. apply andb_true_iff in Ht as [He Ht].
  destruct (entry_terms_word reverse e He) as [Hs _].
  unfold passesFrom. simpl. rewrite wholeWordFrom_end by exact Hs. now apply IH.
Qed.

Lemma passesFrom_separator reverse t before c : forall s,
  wordTable t = true -> isWordChar c = false ->
  passesFrom toUpperCase reverse t before (c :: s)
  = c :: passesFrom toUpperCase reverse t (Some c) s.
Proof.
  induction t as [|e t IH]; intros s Ht Hc; [reflexivity|].
  simpl in Ht. apply andb_true_iff in Ht as [He Ht].
  destruct (entry_terms_word reverse e He) as [Hs _].
  unfold passesFrom. simpl. rewrite wholeWordFrom_separator by assumption.
  now apply IH.
Qed.

Lemma passesFrom_last_word reverse t before : forall w,
  wordTable t = true -> optWordChar before = false -> isWord w = true ->
  passesFrom toUpperCase reverse t before w = wordPasses toUpperCase reverse t w.
Proof.
  induction t as [|e t IH]; intros w Ht Hb Hw; [reflexivity|].
  simpl in Ht. apply andb_true_iff in Ht as [He Ht].
  destruct (entry_terms_word reverse e He) as [Hs _].
  unfold passesFrom, wordPasses. simpl.
  rewrite <- (app_nil_r w) at 1.
  rewrite wholeWordFrom_word, wholeWordFrom_end, app_nil_r by easy.
  apply IH; [assumption..|]. now apply wordPass_word.
Qed.

Lemma passesFrom_word reverse t before c : forall w s,
  wordTable t = true -> optWordChar before = false -> isWord w = true ->
  isWordChar c = false ->
  passesFrom toUpperCase reverse t before (w ++ c :: s)
  = wordPasses toUpperCase reverse t w
    ++ c :: passesFrom toUpperCase reverse t (Some c) s.
Proof.
  induction t as [|e t IH]; intros w s Ht Hb Hw Hc; [reflexivity|].
  simpl in Ht. apply andb_true_iff in Ht as [He Ht].
  destruct (entry_terms_word reverse e He) as [Hs _].
  unfold passesFrom, wordPasses. simpl.
  rewrite wholeWordFrom_word, wholeWordFrom_separator by easy.
  apply IH; [assumption.. | now apply wordPass_word | assumption].
Qed.

(** A word no search term of the table matches goes through its passes
    as it is. *)
Lemma wordPasses_untouched reverse t x :
  (forall e, In e t -> sameLettersb toUpperCase (searchTerm reverse e) x = false) ->
  wordPasses toUpperCase reverse t x = x.
Proof.
  induction t as [|e t IH]; intro H; [reflexivity|].
  unfold wordPasses. simpl. unfold wordPass at 2.
  rewrite (H e) by now left. apply IH. intros e' He'. apply H. now right.
Qed.

Lemma wordPasses_cons reverse e t w :
  wordPasses toUpperCase reverse (e :: t) w
  = wordPasses toUpperCase reverse t (wordPass toUpperCase reverse w e).
Proof. reflexivity. Qed.

Lemma wordPass_hit reverse w e :
  sameLettersb toUpperCase (searchTerm reverse e) w = true ->
  wordPass toUpperCase reverse w e
  = wholeWordCallback toUpperCase (replacementTerm reverse e) w.
Proof. unfold wordPass. now intros ->. Qed.

Lemma wordPass_miss reverse w e :
  sameLettersb toUpperCase (searchTerm reverse e) w = false ->
  wordPass toUpperCase reverse w e = w.
Proof. unfold wordPass. now intros ->. Qed.

(** Forward, a word comes out as it is or as a value of the table, up to
    case. *)
Lemma wordPasses_forward t : forall w,
  wordTable t = true ->
  sameLetters toUpperCase (wordPasses toUpperCase false t w) w
  \/ exists e, In e t /\ sameLetters toUpperCase (wordPasses toUpperCase false t w) (snd e).
Proof.
  induction t as [|e t IH]; intros w Ht; [now left|].
  simpl in Ht. apply andb_true_iff in Ht as [He Ht].
  apply andb_true_iff in He as [_ Hv].
  rewrite wordPasses_cons.
  destruct (IH (wordPass toUpperCase false w e) Ht) as [H | (e' & He' & H)].
  - destruct (sameLettersb toUpperCase (searchTerm false e) w) eqn:E.
    + right. exists e. split; [now left|].
      rewrite (wordPass_hit false w e E) in *.
      unfold sameLetters in *. rewrite H. now apply wholeWordCallback_word.
    + left. now rewrite (wordPass_miss false w e E) in *.
  - right. exists e'. split; [now right | exact H].
Qed.

Lemma independent_head e t :
  independentEntries toUpperCase (e :: t) = true ->
  independentEntries toUpperCase t = true
  /\ forall e', In e' t ->
       sameLettersb toUpperCase (snd e) (snd e') = false
       /\ sameLettersb toUpperCase (fst e) (snd e') = false
       /\ sameLettersb toUpperCase (fst e') (snd e) = false.
Proof.
  simpl. intro H. apply andb_true_iff in H as [Hall Ht]. split; [exact Ht|].
  intros e' He'. rewrite forallb_forall in Hall. specialize (Hall e' He').
  unfold unrelated in Hall. apply andb_true_iff in Hall as [Hall H3].
  apply andb_true_iff in Hall as [H1 H2].
  now rewrite negb_true_iff in H1, H2, H3.
Qed.

(** A word that is no value of the table comes back from the two
    directions as it was, up to case. *)
Lemma word_round_trip t : forall w,
  wordTable t = true -> independentEntries toUpperCase t = true ->
  (forall e, In e t -> sameLettersb toUpperCase (snd e) w = false) ->
  sameLetters toUpperCase
    (wordPasses toUpperCase true t (wordPasses toUpperCase false t w)) w.
Proof.
  induction t as [|e t IH]; intros w Ht Hind Hw; [reflexivity|].
  pose proof Ht as Ht'. simpl in Ht'. apply andb_true_iff in Ht' as [He Htail].
  apply andb_true_iff in He as [Hk Hv].
  destruct (independent_head e t Hind) as [Hind' Hhead].
  rewrite (wordPasses_cons false).
  destruct (sameLettersb toUpperCase (searchTerm false e) w) eqn:Ekw.
  - (* the word is the entry's property name *)
    rewrite (wordPass_hit false w e Ekw). simpl replacementTerm.
    destruct (wholeWordCallback_word (snd e) w Hv) as [_ Hw1].
    set (w1 := wholeWordCallback toUpperCase (snd e) w) in *.
    rewrite (wordPasses_untouched false t w1).
    2:{ intros e' He'. simpl. rewrite (sameLettersb_letters _ _ _ Hw1).
        now apply Hhead. }
    rewrite (wordPasses_cons true), (wordPass_hit true w1 e).
    2:{ simpl. rewrite (sameLettersb_letters _ _ _ Hw1).
        now apply sameLettersb_true. }
    simpl replacementTerm.
    destruct (wholeWordCallback_word (fst e) w1 Hk) as [_ Hw2].
    set (w2 := wholeWordCallback toUpperCase (fst e) w1) in *.
    rewrite (wordPasses_untouched true t w2).
    2:{ intros e' He'. simpl. rewrite (sameLettersb_letters _ _ _ Hw2).
        rewrite sameLettersb_sym. now apply Hhead. }
    apply sameLettersb_true in Ekw. simpl in Ekw.
    unfold sameLetters in *. congruence.
  - (* the word is left to the rest of the table *)
    rewrite (wordPass_miss false w e Ekw).
    set (W := wordPasses toUpperCase false t w).
    rewrite (wordPasses_cons true), (wordPass_miss true W e).
    + apply IH; [assumption..|]. intros e' He'. apply Hw. now right.
    + simpl.
      destruct (wordPasses_forward t w Htail) as [H | (e' & He' & H)]; fold W in H.
      * rewrite (sameLettersb_letters _ _ _ H). apply Hw. now left.
      * rewrite (sameLettersb_letters _ _ _ H). now apply Hhead.
Qed.

Lemma containsMatchFrom_skip re : forall a before s,
  containsMatchFrom toUpperCase re before (a ++ s) = false ->
  containsMatchFrom toUpperCase re (lastBefore before a) s = false.
Proof.
  induction a as [|c a IH]; intros before s H; [exact H|].
  rewrite lastBefore_cons. apply IH. simpl in H.
  now destruct (matchAtoms toUpperCase re before (c :: a ++ s)).
Qed.

Lemma containsMatchFrom_here re before s :
  containsMatchFrom toUpperCase re before s = false ->
  matchAtoms toUpperCase re before s = None.
Proof.
  destruct s; simpl; now destruct (matchAtoms toUpperCase re before _).
Qed.

Lemma valueOccursFrom_skip t a before s :
  valueOccursFrom toUpperCase t before (a ++ s) = false ->
  valueOccursFrom toUpperCase t (lastBefore before a) s = false.
Proof.
  unfold valueOccursFrom. induction t as [|e t IH]; simpl; [reflexivity|].
  intro H. apply orb_false_iff in H as [He Ht].
  now rewrite (containsMatchFrom_skip _ a), IH.
Qed.

Lemma valueOccursFrom_word t before w rest :
  wordTable t = true -> optWordChar before = false -> isWord w = true ->
  optWordChar (hd_error rest) = false ->
  valueOccursFrom toUpperCase t before (w ++ rest) = false ->
  forall e, In e t -> sameLettersb toUpperCase (snd e) w = false.
Proof.
  intros Ht Hb Hw Hrest H e He.
  unfold valueOccursFrom in H. unfold wordTable in Ht.
  rewrite forallb_forall in Ht. specialize (Ht e He).
  apply andb_true_iff in Ht as [_ Hv].
  assert (Hm : containsMatchFrom toUpperCase (wholeWordRegex (snd e)) before (w ++ rest)
               = false).
  { destruct (containsMatchFrom toUpperCase (wholeWordRegex (snd e)) before (w ++ rest))
      eqn:E; [|reflexivity].
    rewrite <- H. symmetry. apply existsb_exists. now exists e. }
  apply containsMatchFrom_here in Hm.
  rewrite wholeWord_at_word in Hm by assumption.
  now destruct (sameLettersb toUpperCase (snd e) w).
Qed.

Lemma sameLetters_cons c a b :
  sameLetters toUpperCase a b -> sameLetters toUpperCase (c :: a) (c :: b).
Proof. unfold sameLetters. simpl. now intros ->. Qed.

Lemma sameLetters_app a a' b b' :
  sameLetters toUpperCase a a' -> sameLetters toUpperCase b b' ->
  sameLetters toUpperCase (a ++ b) (a' ++ b').
Proof. unfold sameLetters. rewrite !map_app. now intros -> ->. Qed.

(** Forward and back over a sentence in which no value of the table
    occurs. *)
Lemma passes_round_trip t s :
  wordTable t = true -> independentEntries toUpperCase t = true ->
  Tokenized s ->
  forall before,
    optWordChar before = false ->
    valueOccursFrom toUpperCase t before s = false ->
    sameLetters toUpperCase
      (passesFrom toUpperCase true t before (passesFrom toUpperCase false t before s)) s.
Proof.
  intros Ht Hind Hs.
  induction Hs as [|c s Hc Hs IH|w Hw|w c s Hw Hc Hs IH]; intros before Hb Hno.
  - now rewrite !passesFrom_end.
  - rewrite (passesFrom_separator false t before c s) by assumption.
    rewrite (passesFrom_separator true t before c) by assumption.
    apply sameLetters_cons. apply IH; [exact Hc|].
    apply (valueOccursFrom_skip t [c] before s Hno).
  - rewrite (passesFrom_last_word false t before w) by assumption.
    rewrite (passesFrom_last_word true t before)
      by (try apply wordPasses_word; assumption).
    apply word_round_trip; [assumption..|].
    rewrite <- (app_nil_r w) in Hno.
    now apply (valueOccursFrom_word t before w []).
  - rewrite (passesFrom_word false t before c w s) by assumption.
    rewrite (passesFrom_word true t before c)
      by (try apply wordPasses_word; assumption).
    apply sameLetters_app.
    + apply word_round_trip; [assumption..|].
      now apply (valueOccursFrom_word t before w (c :: s)).
    + apply sameLetters_cons. apply IH; [exact Hc|].
      replace (w ++ c :: s) with ((w ++ [c]) ++ s) in Hno
        by now rewrite <- app_assoc.
      apply valueOccursFrom_skip in Hno.
      replace (lastBefore before (w ++ [c])) with (Some c) in Hno; [exact Hno|].
      unfold lastBefore. destruct (w ++ [c]) eqn:E.
      * now destruct w.
      * rewrite <- E. now rewrite last_last.
Qed.

Lemma passesFrom_nonempty t s before :
  wordTable t = true -> optWordChar before = false -> s <> [] ->
  passesFrom toUpperCase false t before s <> [].
Proof.
  intros Ht Hb Hne. destruct (tokenized_all s) as [|c s Hc Hs|w Hw|w c s Hw Hc Hs].
  - now destruct Hne.
  - now rewrite passesFrom_separator.
  - rewrite passesFrom_last_word by assumption.
    pose proof (wordPasses_word false t w Ht Hw) as H.
    now destruct (wordPasses toUpperCase false t w).
  - rewrite passesFrom_word by assumption.
    now destruct (wordPasses toUpperCase false t w).
Qed.

End RoundTrip.

(** * Words, casing and ASCII sentences, further *)

Section WordByWord.

Variable toUpperCase : jsstring -> jsstring.
Hypothesis upper_ascii : UpperCasesAscii toUpperCase.

Lemma asciiToUpper_idempotent s : asciiToUpper (asciiToUpper s) = asciiToUpper s.
Proof.
  unfold asciiToUpper. rewrite map_map. apply map_ext. intro c.
  destruct (inRange 97 122 c) eqn:E; [|now rewrite E].
  destruct (inRange 97 122 (c - 32)) eqn:E'; [|reflexivity].
  unfold inRange in *. apply andb_true_iff in E as [E1 E2], E' as [E3 E4].
  apply N.leb_le in E1, E2, E3, E4. lia.
Qed.

Lemma capitalize_first_ascii s :
  isAscii (firstn 1 s) = true ->
  capitalizeFirstCharacter toUpperCase s = asciiToUpper (firstn 1 s) ++ skipn 1 s.
Proof. intro H. unfold capitalizeFirstCharacter. now rewrite upper_ascii. Qed.

Lemma capitalize_twice s :
  isAscii (firstn 1 s) = true ->
  capitalizeFirstCharacter toUpperCase (capitalizeFirstCharacter toUpperCase s)
  = capitalizeFirstCharacter toUpperCase s.
Proof.
  intro H. rewrite (capitalize_first_ascii s H).
  destruct s as [|c s]; [now rewrite capitalize_first_ascii|].
  change (firstn 1 (c :: s)) with [c] in *. change (skipn 1 (c :: s)) with s.
  pose proof (asciiToUpper_ascii [c] H) as Hup.
  rewrite capitalize_first_ascii by exact Hup.
  change (firstn 1 (asciiToUpper [c] ++ s)) with (asciiToUpper [c]).
  change (skipn 1 (asciiToUpper [c] ++ s)) with s.
  now rewrite asciiToUpper_idempotent.
Qed.

(** X15: on a string whose first character is ASCII,
    [capitalizeFirstCharacter] changes the first character at most: it
    keeps the length and the rest of the string, and capitalizing twice is
    capitalizing once. *)
Theorem capitalizeFirstCharacter_idempotent (s : jsstring) :
  isAscii (firstn 1 s) = true ->
  capitalizeFirstCharacter toUpperCase (capitalizeFirstCharacter toUpperCase s)
  = capitalizeFirstCharacter toUpperCase s
  /\ List.length (capitalizeFirstCharacter toUpperCase s) = List.length s
  /\ skipn 1 (capitalizeFirstCharacter toUpperCase s) = skipn 1 s.
Proof.
  intro H. split; [now apply capitalize_twice|].
  rewrite (capitalize_first_ascii s H). destruct s as [|c s]; [now split|].
  now split.
Qed.

(** X16: the whole-word callback keeps the casing pattern of the match:
    for an ASCII replacement, a match that is its own upper-cased form
    gets a text that is its own upper-cased form, and a capitalized match
    gets a text that is its own capitalized form. *)
Theorem wholeWordCallback_keeps_case_pattern (replace m : jsstring) :
  isAscii replace = true ->
  (m = toUpperCase m ->
   wholeWordCallback toUpperCase replace m
   = toUpperCase (wholeWordCallback toUpperCase replace m))
  /\ (m <> toUpperCase m -> m = capitalizeFirstCharacter toUpperCase m ->
      wholeWordCallback toUpperCase replace m
      = capitalizeFirstCharacter toUpperCase
          (wholeWordCallback toUpperCase replace m)).
Proof.
  intro Hr. rewrite wholeWordCallback_restored. unfold wholeWordRestored. split.
  - intro Hm. destruct (jsstring_eq_dec m (toUpperCase m)); [|contradiction].
    rewrite (upper_ascii replace Hr).
    rewrite upper_ascii by now apply asciiToUpper_ascii.
    now rewrite asciiToUpper_idempotent.
  - intros Hm Hc. destruct (jsstring_eq_dec m (toUpperCase m)); [contradiction|].
    destruct (jsstring_eq_dec m (capitalizeFirstCharacter toUpperCase m));
      [|contradiction].
    symmetry. apply capitalize_twice. now apply firstn_skipn_ascii.
Qed.

(** X17: an ASCII match without a lowercase letter, such as a number, a
    word in capitals or the empty match of an empty search term, is
    replaced by the upper-cased replacement, as a whole word and as a
    suffix. *)
Theorem match_without_lowercase_is_upper_cased (replace m : jsstring) :
  isAscii m = true ->
  forallb (fun c => negb (inRange 97 122 c)) m = true ->
  wholeWordCallback toUpperCase replace m = toUpperCase replace
  /\ suffixCallback toUpperCase replace m = toUpperCase replace.
Proof.
  intros Ha Hm.
  assert (Hup : toUpperCase m = m).
  { rewrite (upper_ascii m Ha). unfold asciiToUpper. clear Ha.
    induction m as [|c m IH]; [reflexivity|].
    simpl in Hm. apply andb_true_iff in Hm as [Hc Hm]. simpl.
    apply negb_true_iff in Hc. now rewrite Hc, IH. }
  unfold wholeWordCallback, suffixCallback. now rewrite Hup, strictEq_refl.
Qed.

Lemma word_no_separators w : forallb isWordChar w = true -> separators w = [].
Proof.
  unfold separators. induction w as [|c w IH]; [reflexivity|].
  simpl. intro H. apply andb_true_iff in H as [Hc Hw]. now rewrite Hc, IH.
Qed.

Lemma separators_app a b : separators (a ++ b) = separators a ++ separators b.
Proof. apply filter_app. Qed.

Lemma passesFrom_separators reverse t s :
  wordTable t = true -> Tokenized s ->
  forall before,
    optWordChar before = false ->
    separators (passesFrom toUpperCase reverse t before s) = separators s.
Proof.
  intros Ht Hs.
  induction Hs as [|c s Hc Hs IH|w Hw|w c s Hw Hc Hs IH]; intros before Hb.
  - now rewrite (passesFrom_end toUpperCase).
  - rewrite (passesFrom_separator toUpperCase) by assumption.
    unfold separators in *. simpl. rewrite Hc. simpl. f_equal. now apply IH.
  - rewrite (passesFrom_last_word toUpperCase upper_ascii) by assumption.
    pose proof (wordPasses_word toUpperCase upper_ascii reverse t w Ht Hw) as Hout.
    apply isWord_chars in Hout as [Hout _]. apply isWord_chars in Hw as [Hw _].
    now rewrite (word_no_separators _ Hout), (word_no_separators w Hw).
  - rewrite (passesFrom_word toUpperCase upper_ascii) by assumption.
    pose proof (wordPasses_word toUpperCase upper_ascii reverse t w Ht Hw) as Hout.
    apply isWord_chars in Hout as [Hout _]. apply isWord_chars in Hw as [Hw _].
    rewrite !separators_app.
    rewrite (word_no_separators _ Hout), (word_no_separators w Hw).
    unfold separators in *. simpl. rewrite Hc. simpl. f_equal. now apply IH.
Qed.

(** X18: with a table of words that has no own property named
    [hasOwnProperty], the characters that are not word characters (spaces,
    punctuation, letters outside ASCII) come out of a translation as they
    went in, in either direction. *)
Theorem word_table_keeps_separators (t : table) (s : jsstring) (reverse : bool)
  (this : DoggoTranslator) :
  loader_translationsMap this = wordsOnly t ->
  wordTable t = true ->
  shadowsHasOwnProperty t = false ->
  s <> [] ->
  exists result,
    fst (translateSentence toUpperCase s reverse this) = Returned result
    /\ separators result = separators s.
Proof.
  intros Hmap Ht Hguard Hs. apply builtInGuard_wordsOnly in Hguard.
  rewrite <- Hmap in Hguard. rewrite translateSentence_run by assumption.
  eexists. split; [reflexivity|]. rewrite Hmap.
  change (translation toUpperCase (wordsOnly t) reverse s)
    with (passesFrom toUpperCase reverse t None s).
  apply passesFrom_separators; [assumption | apply tokenized_all | reflexivity].
Qed.

(** X19: for an ASCII sentence and an ASCII map neither table of which
    has an own property named [hasOwnProperty], the translation is an
    ASCII sentence, and it is the one ASCII upper-casing alone gives: what
    upper-casing does outside ASCII plays no part. *)
Theorem ascii_translation (s : jsstring) (reverse : bool) (this : DoggoTranslator) :
  isAscii s = true ->
  mapAscii (loader_translationsMap this) = true ->
  builtInGuard (loader_translationsMap this) = true ->
  exists result,
    fst (translateSentence toUpperCase s reverse this) = Returned result
    /\ fst (translateSentence asciiToUpper s reverse this) = Returned result
    /\ isAscii result = true.
Proof.
  intros Hs Hmap Hguard. destruct s as [|c s].
  - exists (js "Bork"). now repeat split.
  - rewrite !translateSentence_run by (exact Hguard || discriminate). simpl.
    destruct (translation_ascii toUpperCase upper_ascii
                (loader_translationsMap this) reverse (c :: s) Hmap Hs) as [Heq Hout].
    eexists. split; [now rewrite Heq|]. now split.
Qed.

Lemma sameLetters_length a b :
  sameLetters toUpperCase a b -> List.length a = List.length b.
Proof.
  unfold sameLetters. intro H. apply (f_equal (@List.length codeUnit)) in H.
  now rewrite !length_map in H.
Qed.

Lemma suffix_not_inside k m' rest' before s :
  isWord k = true -> forallb isWordChar s = true ->
  matchAtoms toUpperCase (suffixRegex k) before s = Some (m', rest') ->
  rest' = [].
Proof.
  intros Hk Hs H. apply matchAtoms_suffixRegex in H as (-> & Hsame & Hb).
  apply isWord_chars in Hk as [Hk Hne].
  pose proof (sameLetters_wordChars toUpperCase upper_ascii k m' Hk Hsame) as Hm.
  assert (Hmne : m' <> []).
  { intros ->. destruct k; [now apply Hne | discriminate]. }
  pose proof (last_wordChar m' (chars_isWord m' Hm Hmne)) as Hlast.
  rewrite forallb_app in Hs. apply andb_true_iff in Hs as [_ Hrest].
  destruct rest' as [|x rest']; [reflexivity|]. exfalso.
  simpl in Hrest. apply andb_true_iff in Hrest as [Hx _].
  destruct m' as [|y m']; [now apply Hmne|].
  unfold isWordBoundary, lastBefore in Hb. simpl in Hb. simpl in Hlast.
  now rewrite Hlast, Hx in Hb.
Qed.

Lemma suffixFrom_stem k replace m :
  isWord k = true -> sameLetters toUpperCase k m ->
  forall stem before,
    forallb isWordChar stem = true ->
    suffixFrom toUpperCase k replace before (stem ++ m)
    = stem ++ suffixCallback toUpperCase replace m.
Proof.
  intros Hk Hsame. pose proof Hk as Hk'. apply isWord_chars in Hk' as [Hkw Hkne].
  pose proof (sameLetters_wordChars toUpperCase upper_ascii k m Hkw Hsame) as Hmw.
  assert (Hmne : m <> []).
  { intros ->. destruct k; [now apply Hkne | discriminate]. }
  pose proof (last_wordChar m (chars_isWord m Hmw Hmne)) as Hlast.
  induction stem as [|c stem IH]; intros before Hstem; unfold suffixFrom in *.
  - simpl app. rewrite <- (app_nil_r m) at 1.
    rewrite replaceFrom_match; [|exact Hmne|].
    + rewrite replaceFrom_nil; [now rewrite app_nil_r|].
      destruct k; [now destruct Hkne | reflexivity].
    + apply matchAtoms_suffix_complete; [exact Hsame|].
      destruct m as [|y m]; [now destruct Hmne|].
      unfold isWordBoundary, lastBefore. simpl in *. now rewrite Hlast.
  - simpl in Hstem. apply andb_true_iff in Hstem as [Hc Hstem].
    rewrite <- !app_comm_cons. rewrite replaceFrom_keep; [f_equal; now apply IH|].
    destruct (matchAtoms toUpperCase (suffixRegex k) before (c :: stem ++ m))
      as [[m' rest']|] eqn:E; [exfalso | reflexivity].
    pose proof E as E'. apply suffix_not_inside in E'; [|exact Hk|].
    + subst rest'. apply matchAtoms_suffixRegex in E as (Hs & Hm' & _).
      rewrite app_nil_r in Hs. apply sameLetters_length in Hm', Hsame.
      apply (f_equal (@List.length codeUnit)) in Hs.
      simpl in Hs. rewrite length_app in Hs. lia.
    + simpl. rewrite Hc. simpl. rewrite forallb_app. now rewrite Hstem, Hmw.
Qed.

(** X20: in a word that ends with the suffix term, case ignored, exactly
    that ending is replaced by [transformSuffixes]; [translateWholeWord]
    for the same term leaves the word as it is. *)
Theorem suffix_at_end_of_word (k stem m replace : jsstring) :
  isWord k = true ->
  forallb isWordChar stem = true -> stem <> [] ->
  sameLetters toUpperCase k m ->
  transformSuffixes toUpperCase (stem ++ m) k replace
  = Some (stem ++ suffixCallback toUpperCase replace m)
  /\ translateWholeWord toUpperCase (stem ++ m) k replace = Some (stem ++ m).
Proof.
  intros Hk Hstem Hne Hsame. split.
  - rewrite transformSuffixes_eq. f_equal.
    now apply (suffixFrom_stem k replace m Hk Hsame stem None).
  - rewrite translateWholeWord_eq. f_equal. unfold replaceAll.
    fold (wholeWordFrom toUpperCase k replace None (stem ++ m)).
    pose proof Hk as Hk'. apply isWord_chars in Hk' as [Hkw _].
    pose proof (sameLetters_wordChars toUpperCase upper_ascii k m Hkw Hsame) as Hmw.
    assert (Hw : isWord (stem ++ m) = true).
    { apply chars_isWord; [now rewrite forallb_app, Hstem, Hmw|].
      now destruct stem. }
    rewrite <- (app_nil_r (stem ++ m)) at 1.
    rewrite (wholeWordFrom_word toUpperCase upper_ascii) by easy.
    rewrite (wholeWordFrom_end toUpperCase) by exact Hk.
    assert (Hmiss : sameLettersb toUpperCase k (stem ++ m) = false).
    { apply sameLettersb_false. intro H. apply sameLetters_length in H, Hsame.
      rewrite length_app in H. destruct stem; [now apply Hne | simpl in H; lia]. }
    now rewrite Hmiss, app_nil_r.
Qed.

Lemma noValueIsKey_spec t e e' :
  noValueIsKey toUpperCase t = true -> In e t -> In e' t ->
  sameLettersb toUpperCase (fst e') (snd e) = false.
Proof.
  unfold noValueIsKey. rewrite forallb_forall. intros H He He'.
  specialize (H e He). rewrite forallb_forall in H. specialize (H e' He').
  now apply negb_true_iff.
Qed.

Lemma wordPasses_same_or_value t : forall w,
  wordTable t = true ->
  wordPasses toUpperCase false t w = w
  \/ exists e, In e t /\ sameLetters toUpperCase (wordPasses toUpperCase false t w) (snd e).
Proof.
  induction t as [|e t IH]; intros w Ht; [now left|].
  simpl in Ht. apply andb_true_iff in Ht as [He Ht].
  apply andb_true_iff in He as [_ Hv].
  rewrite wordPasses_cons.
  destruct (sameLettersb toUpperCase (searchTerm false e) w) eqn:E.
  - right. rewrite (wordPass_hit toUpperCase false w e E). simpl replacementTerm.
    destruct (IH (wholeWordCallback toUpperCase (snd e) w) Ht)
      as [H | (e' & He' & H)].
    + exists e. split; [now left|]. rewrite H.
      now apply wholeWordCallback_word.
    + exists e'. split; [now right | exact H].
  - rewrite (wordPass_miss toUpperCase false w e E).
    destruct (IH w Ht) as [H | (e' & He' & H)]; [now left|].
    right. exists e'. split; [now right | exact H].
Qed.

Lemma wordPasses_twice t w :
  wordTable t = true -> noValueIsKey toUpperCase t = true ->
  wordPasses toUpperCase false t (wordPasses toUpperCase false t w)
  = wordPasses toUpperCase false t w.
Proof.
  intros Ht Hno.
  destruct (wordPasses_same_or_value t w Ht) as [H | (e & He & H)].
  - now rewrite !H.
  - apply wordPasses_untouched. intros e' He'. simpl.
    rewrite (sameLettersb_letters toUpperCase _ _ _ H).
    now apply (noValueIsKey_spec t e e').
Qed.

Lemma passesFrom_twice t s :
  wordTable t = true -> noValueIsKey toUpperCase t = true -> Tokenized s ->
  forall before,
    optWordChar before = false ->
    passesFrom toUpperCase false t before (passesFrom toUpperCase false t before s)
    = passesFrom toUpperCase false t before s.
Proof.
  intros Ht Hno Hs.
  induction Hs as [|c s Hc Hs IH|w Hw|w c s Hw Hc Hs IH]; intros before Hb.
  - now rewrite !(passesFrom_end toUpperCase).
  - rewrite (passesFrom_separator toUpperCase upper_ascii false t before c s)
      by assumption.
    rewrite (passesFrom_separator toUpperCase upper_ascii false t before c)
      by assumption.
    f_equal. now apply IH.
  - rewrite (passesFrom_last_word toUpperCase upper_ascii false t before w)
      by assumption.
    rewrite (passesFrom_last_word toUpperCase upper_ascii false t before)
      by (try apply wordPasses_word; assumption).
    now apply wordPasses_twice.
  - rewrite (passesFrom_word toUpperCase upper_ascii false t before c w s)
      by assumption.
    rewrite (passesFrom_word toUpperCase upper_ascii false t before c)
      by (try apply wordPasses_word; assumption).
    rewrite wordPasses_twice by assumption. do 2 f_equal. now apply IH.
Qed.

(** X21: with a table of words that has no own property named
    [hasOwnProperty] and none of whose property names is a value of the
    table, case ignored, translating a translation forward again changes
    nothing. *)
Theorem forward_twice_is_once (t : table) (s : jsstring) (this : DoggoTranslator) :
  loader_translationsMap this = wordsOnly t ->
  wordTable t = true ->
  shadowsHasOwnProperty t = false ->
  noValueIsKey toUpperCase t = true ->
  s <> [] ->
  exists once,
    fst (translateSentence toUpperCase s false this) = Returned once
    /\ fst (translateSentence toUpperCase once false
              (snd (translateSentence toUpperCase s false this)))
       = Returned once.
Proof.
  intros Hmap Ht Hguard Hno Hs. apply builtInGuard_wordsOnly in Hguard.
  rewrite <- Hmap in Hguard.
  exists (passesFrom toUpperCase false t None s).
  rewrite translateSentence_run by assumption. simpl. rewrite Hmap.
  split; [reflexivity|].
  rewrite translateSentence_run
    by first [exact Hguard | now apply passesFrom_nonempty].
  simpl. rewrite Hmap. f_equal.
  change (translation toUpperCase (wordsOnly t) false
            (passesFrom toUpperCase false t None s))
    with (passesFrom toUpperCase false t None (passesFrom toUpperCase false t None s)).
  apply passesFrom_twice; [assumption.. | apply tokenized_all | reflexivity].
Qed.

End WordByWord.

(** * Case restoration and the order of the passes *)

Ltac run_ascii H :=
  rewrite translateSentence_ascii;
  [ rewrite H; vm_compute; reflexivity
  | assumption
  | discriminate
  | reflexivity
  | rewrite H; reflexivity
  | rewrite H; reflexivity ].

(** C1: [translateWholeWord] replaces, from left to right, each match of
    the term as a whole word (the term's letters, case ignored, between two
    word boundaries): by the replacement in upper case when the match is
    its own upper-cased form, else by the replacement with its first
    character capitalized when the match is its own capitalized form, else
    by the replacement as it is; a position with no match keeps its
    character.  With the map [{words: {bark: "woof"}}], ["Bark loudly"]
    becomes ["Woof loudly"], and with [{words: {hello: "bark"}}],
    ["HELLO there"] becomes ["BARK there"]. *)
Theorem wholeWord_case_restoration (toUpperCase : jsstring -> jsstring) :
  UpperCasesAscii toUpperCase ->
  (forall input term replace,
      translateWholeWord toUpperCase input term replace
      = Some (wholeWordFrom toUpperCase term replace None input))
  /\ (forall term replace before m rest,
         term <> [] ->
         WholeWordMatch toUpperCase term before m rest ->
         wholeWordFrom toUpperCase term replace before (m ++ rest)
         = wholeWordRestored toUpperCase replace m
           ++ wholeWordFrom toUpperCase term replace (lastBefore before m) rest)
  /\ (forall term replace before c s,
         (forall m rest, c :: s = m ++ rest ->
                         ~ WholeWordMatch toUpperCase term before m rest) ->
         wholeWordFrom toUpperCase term replace before (c :: s)
         = c :: wholeWordFrom toUpperCase term replace (Some c) s)
  /\ (forall this,
         loader_translationsMap this = wordsOnly [(js "bark", js "woof")] ->
         fst (translateSentence toUpperCase (js "Bark loudly") false this)
         = Returned (js "Woof loudly"))
  /\ (forall this,
         loader_translationsMap this = wordsOnly [(js "hello", js "bark")] ->
         fst (translateSentence toUpperCase (js "HELLO there") false this)
         = Returned (js "BARK there")).
Proof.
  intro HU. repeat split.
  - intros. apply translateWholeWord_eq.
  - intros term replace before m rest Hne Hm. unfold wholeWordFrom.
    rewrite <- wholeWordCallback_restored. apply replaceFrom_match.
    + destruct Hm as [_ Hm]. eapply SuffixMatch_nonempty; eassumption.
    + apply matchAtoms_wholeWordRegex. now split.
  - intros term replace before c s Hno. apply replaceFrom_keep.
    destruct (matchAtoms toUpperCase (wholeWordRegex term) before (c :: s))
      as [[m rest]|] eqn:E; [|reflexivity].
    apply matchAtoms_wholeWordRegex in E as [Hs Hm]. now destruct (Hno m rest Hs).
  - intros this H. run_ascii H.
  - intros this H. run_ascii H.
Qed.

(** C2: [transformSuffixes] asks for a word boundary after the match only,
    so the term is found at the end of any word; a match that is its own
    upper-cased form is replaced by the replacement in upper case and every
    other match, a capitalized one included, by the replacement as it is.
    With the map [{suffixes: {ing: "ong"}}], ["running"] becomes
    ["runnong"]. *)
Theorem suffix_case_restoration (toUpperCase : jsstring -> jsstring) :
  UpperCasesAscii toUpperCase ->
  (forall input term replace,
      transformSuffixes toUpperCase input term replace
      = Some (suffixFrom toUpperCase term replace None input))
  /\ (forall term replace before m rest,
         term <> [] ->
         SuffixMatch toUpperCase term before m rest ->
         suffixFrom toUpperCase term replace before (m ++ rest)
         = suffixRestored toUpperCase replace m
           ++ suffixFrom toUpperCase term replace (lastBefore before m) rest)
  /\ (forall term replace before c s,
         (forall m rest, c :: s = m ++ rest ->
                         ~ SuffixMatch toUpperCase term before m rest) ->
         suffixFrom toUpperCase term replace before (c :: s)
         = c :: suffixFrom toUpperCase term replace (Some c) s)
  /\ (forall this,
         loader_translationsMap this = suffixesOnly [(js "ing", js "ong")] ->
         fst (translateSentence toUpperCase (js "running") false this)
         = Returned (js "runnong")
         /\ fst (translateSentence toUpperCase (js "RUNNING") false this)
            = Returned (js "RUNNONG")
         /\ fst (translateSentence toUpperCase (js "Ing") false this)
            = Returned (js "ong")).
Proof.
  intro HU. repeat split.
  - intros. apply transformSuffixes_eq.
  - intros term replace before m rest Hne Hm. unfold suffixFrom.
    rewrite <- suffixCallback_restored. apply replaceFrom_match.
    + eapply SuffixMatch_nonempty; eassumption.
    + apply matchAtoms_suffixRegex. now split.
  - intros term replace before c s Hno. apply replaceFrom_keep.
    destruct (matchAtoms toUpperCase (suffixRegex term) before (c :: s))
      as [[m rest]|] eqn:E; [|reflexivity].
    apply matchAtoms_suffixRegex in E as [Hs Hm]. now destruct (Hno m rest Hs).
  - run_ascii H.
  - run_ascii H.
  - run_ascii H.
Qed.

(** C10: the pairs are applied one after the other to the sentence as it
    stands, the words in table order and then the suffixes (for every map
    whose loops run with the built-in guard), so a later pair rewrites
    what an earlier one has produced: with the words
    [{hello: "bark", bark: "woof"}], ["hello"] becomes ["woof"], not
    ["bark"], and with [{words: {dog: "barking"}, suffixes: {ing: "ong"}}],
    ["dog"] becomes ["barkong"]. *)
Theorem later_pairs_rewrite_earlier_output (toUpperCase : jsstring -> jsstring) :
  UpperCasesAscii toUpperCase ->
  (forall sentence reverse this,
      builtInGuard (loader_translationsMap this) = true ->
      sentence <> [] ->
      fst (translateSentence toUpperCase sentence reverse this)
      = Returned
          (fold_left (suffixPass toUpperCase reverse)
             (entries (suffixes (loader_translationsMap this)))
             (fold_left (wholeWordPass toUpperCase reverse)
                (entries (words (loader_translationsMap this))) sentence)))
  /\ (forall this,
         loader_translationsMap this
         = wordsOnly [(js "hello", js "bark"); (js "bark", js "woof")] ->
         fst (translateSentence toUpperCase (js "hello") false this)
         = Returned (js "woof"))
  /\ (forall this,
         loader_translationsMap this
         = {| words := Some [(js "dog", js "barking")];
              suffixes := Some [(js "ing", js "ong")] |} ->
         fst (translateSentence toUpperCase (js "dog") false this)
         = Returned (js "barkong")).
Proof.
  intro HU. repeat split.
  - intros sentence reverse this Hguard Hne.
    rewrite translateSentence_run by assumption.
    unfold translation. simpl.
    now destruct (suffixes (loader_translationsMap this)).
  - intros this H. run_ascii H.
  - intros this H. run_ascii H.
Qed.

(** C9, as the code has it: for a map with a [words] table only, whose
    property names and values are words, none of the property names being
    [hasOwnProperty] and no value being another entry's value or property
    name (case ignored), and for a sentence that is not empty and in which
    no value of the table occurs as a whole word (case ignored),
    translating forward and then translating the result in reverse gives
    the sentence back up to case, whatever its casing. *)
Theorem round_trip_up_to_case (toUpperCase : jsstring -> jsstring)
  (t : table) (sentence : jsstring) (this : DoggoTranslator) :
  UpperCasesAscii toUpperCase ->
  loader_translationsMap this = wordsOnly t ->
  wordTable t = true ->
  shadowsHasOwnProperty t = false ->
  independentEntries toUpperCase t = true ->
  sentence <> [] ->
  valueOccurs toUpperCase t sentence = false ->
  exists forward back,
    translateSentence toUpperCase sentence false this
    = (Returned forward, afterRead this)
    /\ fst (translateSentence toUpperCase forward true (afterRead this))
       = Returned back
    /\ sameLetters toUpperCase back sentence.
Proof.
  intros HU Hmap Ht Hguard Hind Hne Hno.
  apply builtInGuard_wordsOnly in Hguard. rewrite <- Hmap in Hguard.
  exists (passesFrom toUpperCase false t None sentence).
  exists (passesFrom toUpperCase true t None
            (passesFrom toUpperCase false t None sentence)).
  split; [|split].
  - rewrite translateSentence_run by assumption. now rewrite Hmap.
  - rewrite translateSentence_run
      by first [exact Hguard | now apply passesFrom_nonempty].
    simpl. now rewrite Hmap.
  - apply passes_round_trip; try assumption; [apply tokenized_all | reflexivity].
Qed.

(** * A sample translator

    A catalog with the two tokens the class names, a library with one map
    for the default language, and translators built from a config with a
    custom map. *)

Module Sample.

Definition english : jsstring := js "english".
Definition userDefined : jsstring := js "user-defined".

Definition tokenAvailable (requested : token) : bool :=
  match requested with
  | Some s => strictEq s english || strictEq s userDefined
  | None => false
  end.

Definition englishMap : TranslationMapInterface :=
  {| words := Some [(js "hello", js "henlo"); (js "friend", js "fren")];
     suffixes := Some [(js "ing", js "in")] |}.

Definition libraryTranslations (requested : token) (held : TranslationMapInterface)
  : TranslationMapInterface :=
  match requested with
  | Some s => if strictEq s english then englishMap else held
  | None => held
  end.

Definition unloaded : TranslationMapInterface := {| words := None; suffixes := None |}.

Definition construct (config : option DoggoTranslatorConfig)
  : Outcome unit * DoggoTranslator :=
  constructor english userDefined tokenAvailable libraryTranslations unloaded config.

Definition customConfig (map : TranslationMapInterface) : DoggoTranslatorConfig :=
  {| languageToken := None; userTranslationsMap := Some map |}.

(** The instance [new DoggoTranslator({userTranslationsMap: map})]. *)
Definition translatorWith (map : TranslationMapInterface) : DoggoTranslator :=
  snd (construct (Some (customConfig map))).

Definition barkMap : TranslationMapInterface := wordsOnly [(js "bark", js "woof")].

End Sample.

Lemma asciiToUpper_upperCasesAscii : UpperCasesAscii asciiToUpper.
Proof. intros s _. reflexivity. Defined.

Lemma wholeWord_case_restoration_witness :
  fst (translateSentence asciiToUpper (js "Bark loudly") false
         (Sample.translatorWith Sample.barkMap))
  = Returned (js "Woof loudly")
  /\ wholeWordFrom asciiToUpper (js "bark") (js "woof") None (js "Bark" ++ js " loudly")
     = js "Woof" ++ wholeWordFrom asciiToUpper (js "bark") (js "woof") (Some 107) (js " loudly")
  /\ wholeWordFrom asciiToUpper (js "bark") (js "woof") (Some 107) (js " loudly")
     = 32 :: wholeWordFrom asciiToUpper (js "bark") (js "woof") (Some 32) (js "loudly").
Proof.
  destruct (wholeWord_case_restoration asciiToUpper asciiToUpper_upperCasesAscii)
    as (_ & Hmatch & Hkeep & Hbark & _).
  split; [|split].
  - apply Hbark. reflexivity.
  - apply (Hmatch (js "bark") (js "woof") None (js "Bark") (js " loudly")).
    + discriminate.
    + repeat split; reflexivity.
  - apply (Hkeep (js "bark") (js "woof") (Some 107) 32 (js "loudly")).
    intros m rest Hs [_ [Hm _]]. destruct m as [|x m]; [discriminate|].
    inversion Hs; subst x. vm_compute in Hm. discriminate.
Defined.

Lemma suffix_case_restoration_witness :
  fst (translateSentence asciiToUpper (js "running") false
         (Sample.translatorWith (suffixesOnly [(js "ing", js "ong")])))
  = Returned (js "runnong")
  /\ suffixFrom asciiToUpper (js "ing") (js "ong") (Some 110) (js "Ing" ++ [])
     = js "ong" ++ suffixFrom asciiToUpper (js "ing") (js "ong") (Some 103) [].
Proof.
  destruct (suffix_case_restoration asciiToUpper asciiToUpper_upperCasesAscii)
    as (_ & Hmatch & _ & Hrun).
  split.
  - apply Hrun. reflexivity.
  - apply (Hmatch (js "ing") (js "ong") (Some 110) (js "Ing") []).
    + discriminate.
    + repeat split; reflexivity.
Defined.

Lemma later_pairs_rewrite_earlier_output_witness :
  fst (translateSentence asciiToUpper (js "hello") false
         (Sample.translatorWith
            (wordsOnly [(js "hello", js "bark"); (js "bark", js "woof")])))
  = Returned (js "woof")
  /\ fst (translateSentence asciiToUpper (js "Hello friend") false
            (Sample.translatorWith Sample.englishMap))
     = Returned
         (fold_left (suffixPass asciiToUpper false) [(js "ing", js "in")]
            (fold_left (wholeWordPass asciiToUpper false)
               [(js "hello", js "henlo"); (js "friend", js "fren")]
               (js "Hello friend"))).
Proof.
  destruct (later_pairs_rewrite_earlier_output asciiToUpper asciiToUpper_upperCasesAscii)
    as (Hpasses & Hchain & _).
  split.
  - apply Hchain. reflexivity.
  - apply (Hpasses (js "Hello friend") false (Sample.translatorWith Sample.englishMap));
      [reflexivity | discriminate].
Defined.

Lemma translateSentence_total_with_builtin_guard_witness :
  fst (translateSentence asciiToUpper (js "good dog") false
         (Sample.translatorWith Sample.barkMap))
  = Returned (js "good dog").
Proof.
  destruct (translateSentence_total_with_builtin_guard asciiToUpper (js "good dog")
              false (Sample.translatorWith Sample.barkMap) eq_refl)
    as (result & -> & Hsame).
  f_equal. apply Hsame; [discriminate | reflexivity].
Defined.

Lemma translateSentence_throws_with_shadowed_guard_witness :
  translateSentence asciiToUpper (js "bark") false
    (Sample.translatorWith (wordsOnly [(js "hasOwnProperty", js "woof")]))
  = (Thrown typeError,
     afterRead (Sample.translatorWith (wordsOnly [(js "hasOwnProperty", js "woof")])))
  /\ translateSentence asciiToUpper (js "running") true
       (Sample.translatorWith
          {| words := Some [(js "bark", js "woof")];
             suffixes := Some [(js "ing", js "ong"); (js "hasOwnProperty", js "x")] |})
     = (Thrown typeError,
        afterRead
          (Sample.translatorWith
             {| words := Some [(js "bark", js "woof")];
                suffixes := Some [(js "ing", js "ong");
                                  (js "hasOwnProperty", js "x")] |})).
Proof.
  split; apply translateSentence_throws_with_shadowed_guard;
    (reflexivity || discriminate).
Defined.

Lemma setLanguage_catalog_witness :
  setLanguage Sample.english Sample.tokenAvailable Sample.libraryTranslations
    (Some (js "klingon")) (Sample.translatorWith Sample.barkMap)
  = (Returned tt,
     {| this_languageToken := Some (js "english");
        loader_translationsMap := Sample.barkMap;
        calls := [LoadLibraryTranslations (Some (js "user-defined"));
                  SetTranslationsMap Sample.barkMap;
                  LogError (js "The language was not found, defaulting to english");
                  LoadLibraryTranslations (Some (js "klingon"))] |})
  /\ setLanguage Sample.english Sample.tokenAvailable Sample.libraryTranslations
       (Some (js "english")) (Sample.translatorWith Sample.barkMap)
     = (Returned tt,
        {| this_languageToken := Some (js "english");
           loader_translationsMap := Sample.englishMap;
           calls := [LoadLibraryTranslations (Some (js "user-defined"));
                     SetTranslationsMap Sample.barkMap;
                     LoadLibraryTranslations (Some (js "english"))] |}).
Proof.
  split.
  - apply (setLanguage_catalog Sample.english Sample.tokenAvailable
             Sample.libraryTranslations (Some (js "klingon"))). reflexivity.
  - apply (setLanguage_catalog Sample.english Sample.tokenAvailable
             Sample.libraryTranslations (Some (js "english"))). reflexivity.
Defined.

Lemma constructor_custom_map_witness :
  exists this,
    Sample.construct (Some (Sample.customConfig Sample.barkMap)) = (Returned tt, this)
    /\ loader_translationsMap this = Sample.barkMap
    /\ this_languageToken this = Some (js "user-defined")
    /\ exists reports,
         calls this = reports ++ [LoadLibraryTranslations (Some (js "user-defined"));
                                  SetTranslationsMap Sample.barkMap]
         /\ forall c, In c reports -> exists message, c = LogError message.
Proof.
  apply (constructor_custom_map Sample.english Sample.userDefined Sample.tokenAvailable
           Sample.libraryTranslations Sample.unloaded
           (Sample.customConfig Sample.barkMap) Sample.barkMap).
  reflexivity.
Defined.

(** C5 as stated fails on the sample translator: with a custom
    map in the config the loader's library load is called all the same. *)
Lemma constructor_custom_map_counterexample :
  userTranslationsMap (Sample.customConfig Sample.barkMap) = Some Sample.barkMap
  /\ ~ loaderBypassed (snd (Sample.construct (Some (Sample.customConfig Sample.barkMap)))).
Proof.
  split; [reflexivity|]. intro H.
  apply (H (Some (js "user-defined"))). left. reflexivity.
Qed.

Lemma constructor_config_error_witness :
  Sample.construct None = (Thrown invalidConfigMessage, newInstance Sample.unloaded)
  /\ Sample.construct (Some {| languageToken := Some []; userTranslationsMap := None |})
     = (Thrown invalidConfigMessage, newInstance Sample.unloaded)
  /\ (exists this,
         Sample.construct (Some {| languageToken := Some (js "english");
                                   userTranslationsMap := None |})
         = (Returned tt, this)).
Proof.
  split; [|split].
  - apply (constructor_config_error Sample.english Sample.userDefined
             Sample.tokenAvailable Sample.libraryTranslations Sample.unloaded None).
    exact I.
  - apply (constructor_config_error Sample.english Sample.userDefined
             Sample.tokenAvailable Sample.libraryTranslations Sample.unloaded
             (Some {| languageToken := Some []; userTranslationsMap := None |})).
    split.
    + intros (s & Hs & Hne). simpl in Hs. inversion Hs; subst. now apply Hne.
    + intros (map & Hmap). discriminate.
  - apply (constructor_config_error Sample.english Sample.userDefined
             Sample.tokenAvailable Sample.libraryTranslations Sample.unloaded
             (Some {| languageToken := Some (js "english");
                      userTranslationsMap := None |})).
    intros [Hno _]. apply Hno. exists (js "english"). split; [reflexivity | discriminate].
Defined.

Lemma round_trip_up_to_case_witness :
  exists forward back,
    translateSentence asciiToUpper (js "Hello there, HELLO hello") false
      (Sample.translatorWith (wordsOnly [(js "hello", js "bark")]))
    = (Returned forward,
       afterRead (Sample.translatorWith (wordsOnly [(js "hello", js "bark")])))
    /\ fst (translateSentence asciiToUpper forward true
              (afterRead (Sample.translatorWith (wordsOnly [(js "hello", js "bark")]))))
       = Returned back
    /\ sameLetters asciiToUpper back (js "Hello there, HELLO hello").
Proof.
  apply (round_trip_up_to_case asciiToUpper [(js "hello", js "bark")]).
  - exact asciiToUpper_upperCasesAscii.
  - reflexivity.
  - reflexivity.
  - reflexivity.
  - reflexivity.
  - discriminate.
  - reflexivity.
Defined.

(** C9 as stated fails on a lowercase sentence that holds a
    value of the map: with [{words: {hello: "bark"}}], ["bark"] stays
    ["bark"] forward and comes back as ["hello"]. *)
Lemma round_trip_counterexample :
  lowercaseOnly (js "bark") = true
  /\ fst (translateSentence asciiToUpper (js "bark") false
            (Sample.translatorWith (wordsOnly [(js "hello", js "bark")])))
     = Returned (js "bark")
  /\ fst (translateSentence asciiToUpper (js "bark") true
            (snd (translateSentence asciiToUpper (js "bark") false
                    (Sample.translatorWith (wordsOnly [(js "hello", js "bark")])))))
     = Returned (js "hello")
  /\ ~ sameLetters asciiToUpper (js "hello") (js "bark").
Proof.
  repeat split; try (vm_compute; reflexivity).
  intro H. vm_compute in H. discriminate.
Qed.


(** * The further properties on the sample translator *)

Lemma escapeRegex_distinct_witness :
  escapeRegex (js "a.b") <> escapeRegex (js "a b").
Proof. apply escapeRegex_distinct. discriminate. Defined.

Lemma search_term_case_ignored_witness :
  translateWholeWord asciiToUpper (js "Bark loudly") (js "bark") (js "woof")
  = translateWholeWord asciiToUpper (js "Bark loudly") (js "BARK") (js "woof")
  /\ transformSuffixes asciiToUpper (js "Bark loudly") (js "bark") (js "woof")
     = transformSuffixes asciiToUpper (js "Bark loudly") (js "BARK") (js "woof").
Proof. apply search_term_case_ignored. reflexivity. Defined.

Lemma translateSentence_reads_only_witness :
  fst (translateSentence asciiToUpper (js "Bark loudly") false
         {| this_languageToken := None;
            loader_translationsMap := Sample.barkMap;
            calls := [] |})
  = fst (translateSentence asciiToUpper (js "Bark loudly") false
           (Sample.translatorWith Sample.barkMap)).
Proof.
  apply (translateSentence_reads_only asciiToUpper (js "Bark loudly") false
           (Sample.translatorWith Sample.barkMap)).
  reflexivity.
Defined.

Lemma reverse_is_forward_on_swapped_map_witness :
  fst (translateSentence asciiToUpper (js "Woof loudly") false
         (Sample.translatorWith (wordsOnly [(js "woof", js "bark")])))
  = fst (translateSentence asciiToUpper (js "Woof loudly") true
           (Sample.translatorWith Sample.barkMap)).
Proof. apply reverse_is_forward_on_swapped_map; reflexivity. Defined.

Lemma translateSentence_not_empty_witness :
  exists result,
    fst (translateSentence asciiToUpper (js "Bark loudly") false
           (Sample.translatorWith Sample.barkMap))
    = Returned result
    /\ result <> [].
Proof.
  apply translateSentence_not_empty.
  - intros [|c x] Hx; [now destruct Hx | discriminate].
  - discriminate.
  - reflexivity.
  - reflexivity.
Defined.

Lemma setLanguage_keeps_catalog_token_witness :
  languageAvailable Sample.tokenAvailable
    (this_languageToken
       (snd (setLanguage Sample.english Sample.tokenAvailable
               Sample.libraryTranslations (Some (js "klingon"))
               (Sample.translatorWith Sample.barkMap))))
  = true.
Proof. apply setLanguage_keeps_catalog_token. reflexivity. Defined.

Lemma constructor_sets_language_witness :
  (exists s,
      this_languageToken
        (snd (Sample.construct
                (Some {| languageToken := Some (js "klingon");
                         userTranslationsMap := None |})))
      = Some s)
  /\ languageAvailable Sample.tokenAvailable
       (this_languageToken
          (snd (Sample.construct
                  (Some {| languageToken := Some (js "klingon");
                           userTranslationsMap := None |}))))
     = true.
Proof.
  destruct (constructor_sets_language Sample.english Sample.userDefined
              Sample.tokenAvailable Sample.libraryTranslations Sample.unloaded
              (Some {| languageToken := Some (js "klingon");
                       userTranslationsMap := None |})
              (snd (Sample.construct
                      (Some {| languageToken := Some (js "klingon");
                               userTranslationsMap := None |}))))
    as [Hstring Hcatalog].
  - reflexivity.
  - split; [exact Hstring | apply Hcatalog; reflexivity].
Defined.

Lemma custom_map_translates_alone_witness :
  fst (translateSentence asciiToUpper (js "Bark loudly") false
         (snd (Sample.construct (Some (Sample.customConfig Sample.barkMap)))))
  = fst (translateSentence asciiToUpper (js "Bark loudly") false
           {| this_languageToken := None;
              loader_translationsMap := Sample.barkMap;
              calls := [] |}).
Proof.
  apply (custom_map_translates_alone asciiToUpper Sample.english Sample.userDefined
           Sample.tokenAvailable Sample.libraryTranslations Sample.unloaded
           (Sample.customConfig Sample.barkMap) Sample.barkMap);
    reflexivity.
Defined.

Lemma setLanguage_translates_with_requested_witness :
  fst (translateSentence asciiToUpper (js "Hello friend") false
         (snd (setLanguage Sample.english Sample.tokenAvailable
                 Sample.libraryTranslations (Some (js "english"))
                 (Sample.translatorWith Sample.barkMap))))
  = fst (translateSentence asciiToUpper (js "Hello friend") false
           {| this_languageToken := None;
              loader_translationsMap := Sample.englishMap;
              calls := [] |})
  /\ this_languageToken
       (snd (setLanguage Sample.english Sample.tokenAvailable
               Sample.libraryTranslations (Some (js "klingon"))
               (Sample.translatorWith Sample.barkMap)))
     = Some (js "english").
Proof.
  split.
  - apply (setLanguage_translates_with_requested asciiToUpper Sample.english
             Sample.tokenAvailable Sample.libraryTranslations (Some (js "english"))).
    reflexivity.
  - apply (setLanguage_translates_with_requested asciiToUpper Sample.english
             Sample.tokenAvailable Sample.libraryTranslations (Some (js "klingon"))
             (js "Hello friend") false (Sample.translatorWith Sample.barkMap)
             (Sample.translatorWith Sample.barkMap)); reflexivity.
Defined.

Lemma capitalizeFirstCharacter_idempotent_witness :
  capitalizeFirstCharacter asciiToUpper (capitalizeFirstCharacter asciiToUpper (js "bark"))
  = capitalizeFirstCharacter asciiToUpper (js "bark")
  /\ List.length (capitalizeFirstCharacter asciiToUpper (js "bark"))
     = List.length (js "bark")
  /\ skipn 1 (capitalizeFirstCharacter asciiToUpper (js "bark")) = skipn 1 (js "bark").
Proof.
  apply (capitalizeFirstCharacter_idempotent asciiToUpper asciiToUpper_upperCasesAscii).
  reflexivity.
Defined.

Lemma wholeWordCallback_keeps_case_pattern_witness :
  wholeWordCallback asciiToUpper (js "woof") (js "BARK")
  = asciiToUpper (wholeWordCallback asciiToUpper (js "woof") (js "BARK"))
  /\ wholeWordCallback asciiToUpper (js "woof") (js "Bark")
     = capitalizeFirstCharacter asciiToUpper
         (wholeWordCallback asciiToUpper (js "woof") (js "Bark")).
Proof.
  split.
  - destruct (wholeWordCallback_keeps_case_pattern asciiToUpper
                asciiToUpper_upperCasesAscii (js "woof") (js "BARK") eq_refl)
      as [Hupper _].
    apply Hupper. reflexivity.
  - destruct (wholeWordCallback_keeps_case_pattern asciiToUpper
                asciiToUpper_upperCasesAscii (js "woof") (js "Bark") eq_refl)
      as [_ Hcapitalized].
    apply Hcapitalized; [discriminate | reflexivity].
Defined.

Lemma match_without_lowercase_is_upper_cased_witness :
  wholeWordCallback asciiToUpper (js "two") (js "2") = asciiToUpper (js "two")
  /\ suffixCallback asciiToUpper (js "two") (js "2") = asciiToUpper (js "two").
Proof.
  apply (match_without_lowercase_is_upper_cased asciiToUpper
           asciiToUpper_upperCasesAscii); reflexivity.
Defined.

Lemma word_table_keeps_separators_witness :
  exists result,
    fst (translateSentence asciiToUpper (js "Bark, bark!") false
           (Sample.translatorWith Sample.barkMap))
    = Returned result
    /\ separators result = separators (js "Bark, bark!").
Proof.
  apply (word_table_keeps_separators asciiToUpper asciiToUpper_upperCasesAscii
           [(js "bark", js "woof")]);
    [reflexivity | reflexivity | reflexivity | discriminate].
Defined.

Lemma ascii_translation_witness :
  exists result,
    fst (translateSentence asciiToUpper (js "Bark, bark!") false
           (Sample.translatorWith Sample.barkMap))
    = Returned result
    /\ fst (translateSentence asciiToUpper (js "Bark, bark!") false
              (Sample.translatorWith Sample.barkMap))
       = Returned result
    /\ isAscii result = true.
Proof.
  apply (ascii_translation asciiToUpper asciiToUpper_upperCasesAscii); reflexivity.
Defined.

Lemma suffix_at_end_of_word_witness :
  transformSuffixes asciiToUpper (js "RUNN" ++ js "ING") (js "ing") (js "ong")
  = Some (js "RUNN" ++ suffixCallback asciiToUpper (js "ong") (js "ING"))
  /\ translateWholeWord asciiToUpper (js "RUNN" ++ js "ING") (js "ing") (js "ong")
     = Some (js "RUNN" ++ js "ING").
Proof.
  apply (suffix_at_end_of_word asciiToUpper asciiToUpper_upperCasesAscii);
    [reflexivity | reflexivity | discriminate | reflexivity].
Defined.

Lemma forward_twice_is_once_witness :
  exists once,
    fst (translateSentence asciiToUpper (js "Bark, bark!") false
           (Sample.translatorWith Sample.barkMap))
    = Returned once
    /\ fst (translateSentence asciiToUpper once false
              (snd (translateSentence asciiToUpper (js "Bark, bark!") false
                      (Sample.translatorWith Sample.barkMap))))
       = Returned once.
Proof.
  apply (forward_twice_is_once asciiToUpper asciiToUpper_upperCasesAscii
           [(js "bark", js "woof")]);
    [reflexivity | reflexivity | reflexivity | reflexivity | discriminate].
Defined.
